(** * The encrypted object store and its transactional update protocol

    A shallow embedding of [secure/storage.go] (advisory locks,
    [OpenManyForUpdate] and its commit closure, [ReadDataFile],
    [SaveDataFile]) and of the client's [Sync] and [Free], over an explicit
    model of the file system the Go code talks to.

    The Go functions become state-passing functions on a [world]; every
    error return of the source is an [option error] (or a sum) here.  The
    one loop of the source that need not terminate, the retry loop of
    [Lock], takes fuel. *)

From Stdlib Require Import ZArith.
From Stdlib.Strings Require Import Byte Ascii.
From stdpp Require Import base gmap strings list sorting pretty.

Local Open Scope string_scope.
Local Open Scope list_scope.

Set Warnings "-register-all".

(** ** Errors *)

(** The system calls that can fail for reasons the model does not derive from
    the state of the file system (permissions, a full or read-only disk). *)
Inductive op := OpMkdir | OpCreate | OpWrite | OpClose | OpRemove | OpRename.

Global Instance op_eq_dec : EqDecision op.
Proof. solve_decision. Defined.

Inductive error :=
| ErrRolledBack                    (* secure.ErrRolledBack *)
| ErrAlreadyRolledBack             (* secure.ErrAlreadyRolledBack *)
| ErrAlreadyCommitted              (* secure.ErrAlreadyCommitted *)
| ErrNotExist (path : string)      (* a *PathError for which errors.Is(err, os.ErrNotExist) *)
| ErrExist (path : string)         (* a *PathError for which errors.Is(err, os.ErrExist) *)
| ErrIO (o : op) (path : string)   (* any other failure of a system call *)
| ErrNewKey | ErrWriteKey | ErrReadKey
| ErrStartWriter | ErrStartReader
| ErrGzipWrite | ErrGzipRead
| ErrEncode | ErrDecode
| ErrBackup
| ErrGlob
| ErrDownload (file : string)
| Errorf (prefix : string) (errs : list error)   (* fmt.Errorf("prefix: %v", errs) *)
| ErrorfW (first : error) (rest : list error).   (* fmt.Errorf("%w %v", first, rest) *)

(** [errors.Is(err, os.ErrNotExist)]: looks through [%w] wrapping only. *)
Fixpoint is_ErrNotExist (e : error) : bool :=
  match e with
  | ErrNotExist _ => true
  | ErrorfW first _ => is_ErrNotExist first
  | _ => false
  end.

(** [errors.Is(err, os.ErrExist)]. *)
Fixpoint is_ErrExist (e : error) : bool :=
  match e with
  | ErrExist _ => true
  | ErrorfW first _ => is_ErrExist first
  | _ => false
  end.

(** ** The file system *)

Record file := mkFile { f_data : list byte; f_mtime : Z }.

(** Modelled from the spec: the backup record of section 4.D, which
    [createBackup] (absent from the sources at hand) writes: the manifest of
    the N logical names, each with a copy of its original envelope when
    there is one on disk. *)
Record backup := Backup {
  b_id : Z;
  b_files : list (string * option (list byte)) }.

(** What the program did to the outside, in order. *)
Inductive event :=
| EvCreate (path : string) (ok : bool)        (* os.OpenFile(O_CREATE|O_EXCL) *)
| EvRemove (path : string) (ok : bool)        (* os.Remove *)
| EvRename (src dst : string) (ok : bool)     (* os.Rename *)
| EvSave (filename : string)                  (* entry of SaveDataFile *)
| EvBackupCreate (names : list string) (ok : bool)
| EvBackupRestore (id : Z)
| EvBackupDelete (id : Z)
| EvDownload (worker : nat) (f : string).          (* entry of downloadFile *)

Global Instance event_eq_dec : EqDecision event.
Proof. solve_decision. Defined.

Record world := World {
  fs : gmap string file;      (* path -> file *)
  clock : Z;                  (* time.Now().UnixNano() *)
  rnd : nat;                  (* how many random values were drawn *)
  backups : list backup;      (* the backup records on disk *)
  stdout : list string;       (* what was printed, oldest first *)
  trace : list event }.

Definition set_fs (m : gmap string file) (w : world) : world :=
  World m (clock w) (rnd w) (backups w) (stdout w) (trace w).
Definition set_clock (t : Z) (w : world) : world :=
  World (fs w) t (rnd w) (backups w) (stdout w) (trace w).
Definition set_rnd (n : nat) (w : world) : world :=
  World (fs w) (clock w) n (backups w) (stdout w) (trace w).
Definition set_backups (l : list backup) (w : world) : world :=
  World (fs w) (clock w) (rnd w) l (stdout w) (trace w).
Definition print (s : string) (w : world) : world :=
  World (fs w) (clock w) (rnd w) (backups w) (stdout w ++ [s]) (trace w).
Definition log (ev : event) (w : world) : world :=
  World (fs w) (clock w) (rnd w) (backups w) (stdout w) (trace w ++ [ev]).

(** The environment: the storage root, which system calls fail where, and
    the values [rand.Int()] returns. *)
Record env := Env {
  dir : string;
  fault : op → string → bool;
  rand_src : nat → nat;
  backup_fault : list string → bool }.

(** The outcome of a function that may loop or panic. *)
Inductive run (A : Type) :=
| Ret (a : A)
| Panic (msg : string)
| OutOfFuel.
Global Arguments Ret {A} a.
Global Arguments Panic {A} msg.
Global Arguments OutOfFuel {A}.

Definition Millisecond : Z := 1000000.
Definition Second : Z := 1000000000.

(** [sort.Strings]: ascending byte-wise order. *)
Definition sort_strings (l : list string) : list string :=
  merge_sort String.le l.

(** [sort.Sort(sort.Reverse(sort.StringSlice(l)))]: descending order. *)
Definition sort_strings_reverse (l : list string) : list string :=
  merge_sort (flip String.le) l.

Section OS.
Context (E : env).

(** [filepath.Join(dir, name)] for the clean relative names the store is
    used with. *)
Definition path_join (d name : string) : string := d +:+ "/" +:+ name.

(** [os.OpenFile(path, O_WRONLY|O_CREATE|O_EXCL|O_SYNC, 0600)]. *)
Definition os_OpenFile_excl (path : string) (w : world) : option error * world :=
  match fs w !! path with
  | Some _ => (Some (ErrExist path), log (EvCreate path false) w)
  | None =>
      if fault E OpCreate path
      then (Some (ErrIO OpCreate path), log (EvCreate path false) w)
      else (None, log (EvCreate path true)
                    (set_fs (<[path := mkFile [] (clock w)]> (fs w)) w))
  end.

(** [f.Close()] on a file opened for writing. *)
Definition os_Close (path : string) (w : world) : option error :=
  if fault E OpClose path then Some (ErrIO OpClose path) else None.

(** [os.Remove(path)]. *)
Definition os_Remove (path : string) (w : world) : option error * world :=
  if fault E OpRemove path
  then (Some (ErrIO OpRemove path), log (EvRemove path false) w)
  else match fs w !! path with
       | None => (Some (ErrNotExist path), log (EvRemove path false) w)
       | Some _ => (None, log (EvRemove path true) (set_fs (delete path (fs w)) w))
       end.

(** [os.Rename(src, dst)]: replaces [dst]. *)
Definition os_Rename (src dst : string) (w : world) : option error * world :=
  if fault E OpRename dst
  then (Some (ErrIO OpRename dst), log (EvRename src dst false) w)
  else match fs w !! src with
       | None => (Some (ErrNotExist src), log (EvRename src dst false) w)
       | Some f => (None, log (EvRename src dst true)
                            (set_fs (<[dst := f]> (delete src (fs w))) w))
       end.

(** [os.Stat(path)]: the modification time, or [os.ErrNotExist]. *)
Definition os_Stat (path : string) (w : world) : error + Z :=
  match fs w !! path with
  | None => inl (ErrNotExist path)
  | Some f => inr (f_mtime f)
  end.

(** [createParentIfNotExist(path)]: directories are not part of [fs]; the
    call only matters through its failure. *)
Definition createParentIfNotExist (path : string) : option error :=
  if fault E OpMkdir path then Some (ErrIO OpMkdir path) else None.

(** [rand.Int()]: non-negative. *)
Definition rand_Int (w : world) : Z * world :=
  (Z.of_nat (rand_src E (rnd w)), set_rnd (S (rnd w)) w).

(** [time.Sleep(d)]. *)
Definition time_Sleep (d : Z) (w : world) : world :=
  set_clock (clock w + d)%Z w.

(** ** 4.C Advisory lock manager *)

Definition lock_path (fn : string) : string := path_join (dir E) fn +:+ ".lock".

Definition tryToRemoveStaleLock (lockf : string) (deadline : Z) (w : world) : world :=
  match os_Stat lockf w with
  | inl _ => w
  | inr mtime =>
      if decide (deadline < clock w - mtime)%Z
      then snd (os_Remove lockf w)
      else w
  end.

(** The [for] loop of [Lock]; one unit of fuel per attempt. *)
Fixpoint Lock_loop (fuel : nat) (lockf : string) (deadline : Z) (w : world)
  : run (option error * world) :=
  match fuel with
  | O => OutOfFuel
  | S fuel' =>
      match os_OpenFile_excl lockf w with
      | (Some err, w1) =>
          if is_ErrExist err then
            let w2 := tryToRemoveStaleLock lockf deadline w1 in
            let '(r, w3) := rand_Int w2 in
            let w4 := time_Sleep ((50 + r `mod` 100) * Millisecond)%Z w3 in
            Lock_loop fuel' lockf deadline w4
          else Ret (Some err, w1)
      | (None, w1) =>
          match os_Close lockf w1 with
          | Some err => Ret (Some err, w1)
          | None => Ret (None, w1)
          end
      end
  end.

Definition Lock (fuel : nat) (fn : string) (w : world) : run (option error * world) :=
  let lockf := lock_path fn in
  match createParentIfNotExist lockf with
  | Some err => Ret (Some err, w)
  | None =>
      let '(r, w1) := rand_Int w in
      let deadline := ((600 + r `mod` 60) * Second)%Z in
      Lock_loop fuel lockf deadline w1
  end.

Definition Unlock (fn : string) (w : world) : option error * world :=
  let lockf := lock_path fn in
  match os_Remove lockf w with
  | (Some err, w1) => (Some err, w1)
  | (None, w1) => (None, w1)
  end.

(** The [for _, f := range sorted] loop of [UnlockMany]. *)
Fixpoint UnlockMany_loop (sorted : list string) (w : world) : option error * world :=
  match sorted with
  | [] => (None, w)
  | f :: rest =>
      match Unlock f w with
      | (Some err, w1) => (Some err, w1)
      | (None, w1) => UnlockMany_loop rest w1
      end
  end.

(** [UnlockMany(filenames)].  [sorted] is a copy of the argument taken
    before anything is sorted; [sort.Sort] then reorders the argument
    slice itself, which the caller shares.  The first component of the
    result is the content of the caller's slice afterwards. *)
Definition UnlockMany (filenames : list string) (w : world)
  : list string * (option error * world) :=
  let sorted := filenames in
  let filenames := sort_strings_reverse filenames in
  (filenames, UnlockMany_loop sorted w).

(** The [for _, f := range sorted] loop of [LockMany]. *)
Fixpoint LockMany_loop (fuel : nat) (sorted locks : list string) (w : world)
  : run (option error * world) :=
  match sorted with
  | [] => Ret (None, w)
  | f :: rest =>
      match Lock fuel f w with
      | Ret (Some err, w1) => Ret (Some err, snd (snd (UnlockMany locks w1)))
      | Ret (None, w1) => LockMany_loop fuel rest (locks ++ [f]) w1
      | Panic msg => Panic msg
      | OutOfFuel => OutOfFuel
      end
  end.

Definition LockMany (fuel : nat) (filenames : list string) (w : world)
  : run (option error * world) :=
  let sorted := sort_strings filenames in
  LockMany_loop fuel sorted [] w.

End OS.

(** ** Schedules

    The source runs its reads, its saves and its downloads in goroutines and
    collects one result per goroutine from a channel; the order of arrival is
    up to the scheduler.  A schedule is a list of choices: each one picks,
    among the goroutines still running, the next to deliver. *)

Fixpoint arrival {A} (n : nat) (sched : list nat) (pending : list A) : list A :=
  match n with
  | O => []
  | S n' =>
      let i := hd 0 sched `mod` length pending in
      match pending !! i with
      | Some x => x :: arrival n' (tl sched) (delete i pending)
      | None => []
      end
  end.

Definition arrival_order {A} (sched : list nat) (pending : list A) : list A :=
  arrival (length pending) sched pending.

(** ** 4.A, 4.B Keys and the envelope codec

    Package [crypto], [compress/gzip] and [encoding/json] are not part of the
    sources at hand: the store is parameterised by them. *)
Record codec (Key Obj : Type) := Codec {
  (* masterKey.NewEncryptionKey(), from the n-th random draw *)
  NewEncryptionKey : nat → option Key;
  (* k.WriteEncryptedKey(f): the bytes written *)
  WriteEncryptedKey : Key → option (list byte);
  (* masterKey.ReadEncryptedKey(f): the key and the rest of the stream *)
  ReadEncryptedKey : list byte → option (Key * list byte);
  (* k.StartWriter(f): what reaches f for a plaintext, once closed *)
  StartWriter : Key → option (list byte → option (list byte));
  (* k.StartReader(f): the plaintext of the rest of the stream *)
  StartReader : Key → list byte → option (list byte);
  (* gzip.NewWriterLevel(w, gzip.BestCompression), written and closed *)
  gzip_Writer : list byte → option (list byte);
  (* gzip.NewReader(r) *)
  gzip_Reader : list byte → option (list byte);
  (* json.NewEncoder(gz) with SetIndent("", "  "), Encode(obj) *)
  json_Encode : Obj → option (list byte);
  (* json.NewDecoder(gz).Decode(obj): obj is decoded into *)
  json_Decode : list byte → Obj → option Obj }.
Global Arguments NewEncryptionKey {Key Obj} _ _.
Global Arguments WriteEncryptedKey {Key Obj} _ _.
Global Arguments ReadEncryptedKey {Key Obj} _ _.
Global Arguments StartWriter {Key Obj} _ _.
Global Arguments StartReader {Key Obj} _ _ _.
Global Arguments gzip_Writer {Key Obj} _ _.
Global Arguments gzip_Reader {Key Obj} _ _.
Global Arguments json_Encode {Key Obj} _ _.
Global Arguments json_Decode {Key Obj} _ _ _.

(** What section 4.A asks of the primitives: each layer reads back what it
    wrote. *)
Record codec_ok {Key Obj} (C : codec Key Obj) : Prop := {
  key_roundtrip : ∀ k wk rest,
    WriteEncryptedKey C k = Some wk →
    ReadEncryptedKey C (wk ++ rest) = Some (k, rest);
  stream_roundtrip : ∀ k enc p c,
    StartWriter C k = Some enc → enc p = Some c → StartReader C k c = Some p;
  gzip_roundtrip : ∀ p z,
    gzip_Writer C p = Some z → gzip_Reader C z = Some p;
  json_roundtrip : ∀ o b prior,
    json_Encode C o = Some b → json_Decode C b prior = Some o }.

(** The transaction handle: what the closure returned by [OpenManyForUpdate]
    captures ([files], [keys]) and its two flags. *)
Record update (Key : Type) := Update {
  u_files : list string;
  u_keys : list (option Key);
  u_called : bool;
  u_committed : bool }.
Global Arguments Update {Key} _ _ _ _.
Global Arguments u_files {Key} _.
Global Arguments u_keys {Key} _.
Global Arguments u_called {Key} _.
Global Arguments u_committed {Key} _.

Section Storage.
Context {Key Obj : Type} (E : env) (C : codec Key Obj).

Definition data_path (filename : string) : string := path_join (dir E) filename.

(** Appends to a file open for writing. *)
Definition os_Write (path : string) (data : list byte) (w : world) : option error * world :=
  if fault E OpWrite path then (Some (ErrIO OpWrite path), w)
  else match fs w !! path with
       | None => (Some (ErrNotExist path), w)
       | Some f => (None, set_fs (<[path := mkFile (f_data f ++ data) (clock w)]> (fs w)) w)
       end.

(** [ReadDataFile(filename, obj)]: the key and the error of the source,
    and the value of [*obj] afterwards (left as it was on error). *)
Definition ReadDataFile (filename : string) (obj : Obj) (w : world)
  : (option Key * option error) * Obj :=
  match fs w !! data_path filename with
  | None => ((None, Some (ErrNotExist (data_path filename))), obj)
  | Some f =>
      match ReadEncryptedKey C (f_data f) with
      | None => ((None, Some ErrReadKey), obj)
      | Some (k, rest) =>
          match StartReader C k rest with
          | None => ((None, Some ErrStartReader), obj)
          | Some r =>
              match gzip_Reader C r with
              | None => ((None, Some ErrGzipRead), obj)
              | Some gz =>
                  match json_Decode C gz obj with
                  | None => ((None, Some ErrDecode), obj)
                  | Some obj' => ((Some k, None), obj')
                  end
              end
          end
      end
  end.

(** The [if k == nil] block of [SaveDataFile]. *)
Definition SaveDataFile_key (k : option Key) (filename : string) (w : world)
  : (error + Key) * world :=
  match k with
  | Some k => (inr k, w)
  | None =>
      let w1 := set_rnd (S (rnd w)) w in
      match NewEncryptionKey C (rnd w) with
      | None => (inl ErrNewKey, w1)
      | Some k =>
          match createParentIfNotExist E filename with
          | Some err => (inl err, w1)
          | None => (inr k, w1)
          end
      end
  end.

(** [SaveDataFile(k, filename, obj)].  When it fails after the temporary
    file was created, that file is left behind. *)
Definition SaveDataFile (k : option Key) (filename : string) (obj : Obj) (w : world)
  : option error * world :=
  let w := log (EvSave filename) w in
  let filename := data_path filename in
  match SaveDataFile_key k filename w with
  | (inl err, w1) => (Some err, w1)
  | (inr k, w1) =>
      let t := filename +:+ ".tmp-" +:+ pretty (clock w1) in
      match os_OpenFile_excl E t w1 with
      | (Some err, w2) => (Some err, w2)
      | (None, w2) =>
          match WriteEncryptedKey C k with
          | None => (Some ErrWriteKey, w2)
          | Some wk =>
              match os_Write t wk w2 with
              | (Some err, w3) => (Some err, w3)
              | (None, w3) =>
                  match StartWriter C k with
                  | None => (Some ErrStartWriter, w3)
                  | Some enc =>
                      match json_Encode C obj with
                      | None => (Some ErrEncode, w3)
                      | Some js =>
                          match gzip_Writer C js with
                          | None => (Some ErrGzipWrite, w3)
                          | Some gz =>
                              match enc gz with
                              | None => (Some ErrStartWriter, w3)
                              | Some ct =>
                                  match os_Write t ct w3 with
                                  | (Some err, w4) => (Some err, w4)
                                  | (None, w4) => os_Rename E t filename w4
                                  end
                              end
                          end
                      end
                  end
              end
          end
      end
  end.

(** Modelled from the spec: [createBackup(files)], absent from the sources
    at hand.  Section 4.D: "snapshot the current on-disk envelopes for all
    N names into a single backup record (atomically written + fsynced)",
    kept under [<root>/.backup-<nanos>]. *)
Definition createBackup (files : list string) (w : world)
  : (option backup * option error) * world :=
  if backup_fault E files
  then ((None, Some ErrBackup), log (EvBackupCreate files false) w)
  else
    let b := Backup (clock w) ((λ f, (f, f_data <$> fs w !! data_path f)) <$> files) in
    ((Some b, None),
     log (EvBackupCreate files true) (set_backups (backups w ++ [b]) w)).

Definition forget_backup (b : backup) (l : list backup) : list backup :=
  filter (λ b', b_id b' ≠ b_id b) l.

(** Modelled from the spec: [backup.restore()], absent from the sources at
    hand.  Sections 4.D and 4.G: "rename originals back into place,
    atomically per file", "overwriting whatever is present", then the
    backup directory is deleted. *)
Definition backup_restore (b : backup) (w : world) : world :=
  let put (m : gmap string file) (e : string * option (list byte)) :=
    match e.2 with
    | Some orig => <[data_path e.1 := mkFile orig (clock w)]> m
    | None => m
    end in
  log (EvBackupRestore (b_id b))
    (set_backups (forget_backup b (backups w))
       (set_fs (foldl put (fs w) (b_files b)) w)).

(** Modelled from the spec: [backup.delete()], absent from the sources at
    hand.  Section 4.D: "On success with a backup: delete the backup
    record." *)
Definition backup_delete (b : backup) (w : world) : world :=
  log (EvBackupDelete (b_id b)) (set_backups (forget_backup b (backups w)) w).

End Storage.

(** ** 4.D Transactional object store *)

(** What a reading goroutine sends back: [readValue{i, k, err}]. *)
Record readValue (Key : Type) := ReadValue {
  rv_i : nat;
  rv_k : option Key;
  rv_err : option error }.
Global Arguments ReadValue {Key} _ _ _.
Global Arguments rv_i {Key} _.
Global Arguments rv_k {Key} _.
Global Arguments rv_err {Key} _.

Section Transactions.
Context {Key Obj : Type} (E : env) (C : codec Key Obj).

(** One goroutine per file: [ReadDataFile(files[i], objects[i])].  Reading
    does not change the world, so the goroutines do not interfere. *)
Definition read_all (files : list string) (objects : list Obj) (w : world)
  : list (readValue Key * Obj) :=
  imap (λ i fo, let r := ReadDataFile E C fo.1 fo.2 w in
                (ReadValue i r.1.1 r.1.2, r.2))
       (zip files objects).

(** [v.err != nil && !errors.Is(v.err, os.ErrNotExist)] *)
Definition read_failure (v : readValue Key) : option error :=
  match rv_err v with
  | Some err => if is_ErrNotExist err then None else Some err
  | None => None
  end.

(** The body of the receiving loop: [errorList] and [keys]. *)
Definition collect_read (st : list error * list (option Key)) (v : readValue Key)
  : list error * list (option Key) :=
  (match read_failure v with
   | Some err => st.1 ++ [err]
   | None => st.1
   end,
   <[rv_i v := rv_k v]> st.2).

(** [OpenManyForUpdate(files, objects)]: the closure (as its captured
    state) and the error, the objects as the reads left them, the world.
    [sched] is the order in which the reads arrive. *)
Definition OpenManyForUpdate (fuel : nat) (files : list string) (objects : list Obj)
    (sched : list nat) (w : world)
  : run ((option (update Key) * option error) * list Obj * world) :=
  if decide (length files ≠ length objects)
  then Panic "len(files) != len(objects)"
  else
    match LockMany E fuel files w with
    | Panic msg => Panic msg
    | OutOfFuel => OutOfFuel
    | Ret (Some err, w1) => Ret ((None, Some err), objects, w1)
    | Ret (None, w1) =>
        let reads := read_all files objects w1 in
        let keys := replicate (length files) None in
        let '(errorList, keys) :=
          foldl collect_read ([], keys) (arrival_order sched (fst <$> reads)) in
        match errorList with
        | _ :: _ =>
            let w2 := snd (snd (UnlockMany E files w1)) in
            Ret ((None, Some (Errorf "s.ReadDataFile" errorList)), snd <$> reads, w2)
        | [] =>
            Ret ((Some (Update files keys false false), None), snd <$> reads, w1)
        end
    end.

(** The goroutines of the commit: [(keys[i], files[i], objects[i])]. *)
Definition save_jobs (u : update Key) (objects : list Obj)
  : list (option Key * string * Obj) :=
  zip (zip (u_keys u) (u_files u)) objects.

(** The saves take effect one after the other, in the order of the
    schedule; [errorList] grows in that order. *)
Fixpoint save_each (jobs : list (option Key * string * Obj)) (errorList : list error)
    (w : world) : list error * world :=
  match jobs with
  | [] => (errorList, w)
  | (k, file, obj) :: rest =>
      match SaveDataFile E C k file obj w with
      | (Some err, w1) => save_each rest (errorList ++ [err]) w1
      | (None, w1) => save_each rest errorList w1
      end
  end.

(** The [if commit { ... }] block of the closure.  [inl]: the early
    return after [createBackup] failed; [inr]: [*errp], [committed] and
    the world at the end of the block. *)
Definition commit_save (u : update Key) (objects : list Obj) (sched : list nat)
    (cur : option error) (w : world)
  : (error * world) + ((option error * bool) * world) :=
  let files := u_files u in
  match (if decide (1 < length files)
         then createBackup E files w
         else ((None, None), w)) with
  | ((_, Some err), w1) => inl (err, w1)
  | ((backup, None), w1) =>
      let '(errorList, w2) :=
        save_each (arrival_order sched (save_jobs u objects)) [] w1 in
      match errorList with
      | _ :: _ =>
          let w3 := match backup with
                    | Some b => backup_restore E b w2
                    | None => w2
                    end in
          let cur := match cur with
                     | None => Some (Errorf "s.SaveDataFile" errorList)
                     | Some _ => cur
                     end in
          inr ((cur, false), w3)
      | [] =>
          let w3 := match backup with
                    | Some b => backup_delete b w2
                    | None => w2
                    end in
          inr ((cur, true), w3)
      end
  end.

(** The closure returned by [OpenManyForUpdate], applied to
    [(commit, errp)] in closure state [u].

    [objects] are the current values of the objects the closure holds
    pointers to.  [errp] is [None] for a nil pointer and [Some v] for a
    pointer to an error variable holding [v].  The result is the returned
    error, the caller's error variable afterwards (in the shape of
    [errp]), the closure state afterwards, and the world. *)
Definition commit (u : update Key) (objects : list Obj) (sched : list nat)
    (do_commit : bool) (errp : option (option error)) (w : world)
  : (option error * option (option error)) * (update Key * world) :=
  if u_called u then
    ((Some (if u_committed u then ErrAlreadyCommitted else ErrAlreadyRolledBack),
      errp), (u, w))
  else
    let files := u_files u in
    (* if errp == nil || *errp != nil { errp = &retErr } *)
    let own := match errp with Some None => false | _ => true end in
    let caller (cur : option error) := if own then errp else Some cur in
    match (if do_commit
           then commit_save u objects sched None w
           else inr ((None, false), w)) with
    | inl (err, w1) =>
        ((Some err, caller (Some err)), (Update files (u_keys u) true false, w1))
    | inr ((cur, committed), w1) =>
        let '(files', (uerr, w2)) := UnlockMany E files w1 in
        let cur := match uerr, cur with
                   | Some err, None => Some err
                   | _, _ => cur
                   end in
        let cur := match do_commit, cur with
                   | false, None => Some ErrRolledBack
                   | _, _ => cur
                   end in
        ((cur, caller cur), (Update files' (u_keys u) true committed, w2))
    end.

(** [OpenForUpdate(f, obj)] *)
Definition OpenForUpdate (fuel : nat) (f : string) (obj : Obj) (sched : list nat)
    (w : world) :=
  OpenManyForUpdate fuel [f] [obj] sched w.

End Transactions.

(** ** 4.E, 4.F The client: blob paths, [Sync] and [Free] *)

(** The fields of [stingle.File] and of the client's [ListItem] that [Sync]
    and [Free] read. *)
Record StingleFile := { File : string; LocalOnly : bool }.
Record ListItem := { FSFile : StingleFile; Set_ : string }.

Definition newline : string := String "010"%char "".

(** [for i := 0; i < 5; i++ { go c.downloadWorker(qCh, eCh) }] *)
Definition numWorkers : nat := 5.

Section Client.
(** [GlobFiles], [storage.HashString], [blobsDir] and [c.download] are not
    part of the sources at hand. *)
Context (E : env)
        (GlobFiles : list string → world → error + list ListItem)
        (HashString : string → string)
        (blobsDir : string)
        (download : string → string → string → option (list byte)).

(** [blobPath(name, thumb)]; [n[:2]] is the two-character fan-out of the
    digest [HashString] returns. *)
Definition blobPath (name : string) (thumb : bool) : string :=
  let name := if thumb then name +:+ "-thumb" else name in
  let n := HashString name in
  path_join (path_join (path_join (dir E) blobsDir) (String.substring 0 2 n)) n.

(** [_, err := os.Stat(fn); errors.Is(err, os.ErrNotExist)] *)
Definition stat_not_exist (fn : string) (w : world) : bool :=
  match os_Stat fn w with
  | inl err => is_ErrNotExist err
  | inr _ => false
  end.

Definition downloadFile (li : ListItem) (w : world) : option error * world :=
  match download (File (FSFile li)) (Set_ li) "0" with
  | None => (Some (ErrDownload (File (FSFile li))), w)
  | Some r =>
      let fn := blobPath (File (FSFile li)) false in
      match createParentIfNotExist E fn with      (* os.MkdirAll(dir, 0700) *)
      | Some err => (Some err, w)
      | None =>
          let tmp := fn +:+ "-tmp-" +:+ pretty (clock w) in
          match os_OpenFile_excl E tmp w with
          | (Some err, w1) => (Some err, w1)
          | (None, w1) =>
              match os_Write E tmp r w1 with      (* io.Copy(f, r) *)
              | (Some err, w2) => (Some err, w2)
              | (None, w2) =>
                  match os_Close E tmp w2 with
                  | Some err => (Some err, w2)
                  | None => os_Rename E tmp fn w2
                  end
              end
          end
      end
  end.

(** The first loop of [Sync]: the map [files], keyed by file name. *)
Definition Sync_files (list : list ListItem) (w : world) : gmap string ListItem :=
  foldl (λ files item,
           if LocalOnly (FSFile item) then files
           else
             let fn := blobPath (File (FSFile item)) false in
             if stat_not_exist fn w
             then <[File (FSFile item) := item]> files
             else files)
        ∅ list.

(** The worker pool.  Each item sent on [qCh] is taken by one of the
    [numWorkers] workers, which sends the result of [downloadFile] on
    [eCh]; [who] names the worker for each item.  The downloads take
    effect in the order of [items]. *)
Fixpoint download_each (items : list ListItem) (who : list nat) (errors : list error)
    (w : world) : list error * world :=
  match items with
  | [] => (errors, w)
  | li :: rest =>
      let worker := hd 0 who `mod` numWorkers in
      match downloadFile li (log (EvDownload worker (File (FSFile li))) w) with
      | (Some err, w1) => download_each rest (tl who) (errors ++ [err]) w1
      | (None, w1) => download_each rest (tl who) errors w1
      end
  end.

Definition msg_in_sync : string := "All files already in sync." +:+ newline.
Definition msg_downloaded (n : nat) : string :=
  "Successfully downloaded " +:+ pretty n +:+ " file(s)." +:+ newline.
Definition msg_downloaded_failed (n failed : nat) : string :=
  "Successfully downloaded " +:+ pretty n +:+ " file(s), "
    +:+ pretty failed +:+ " failed." +:+ newline.

(** [Sync(patterns)].  [order] is the order in which the items of the map
    come out of [range files] and complete; [who] assigns the workers. *)
Definition Sync (patterns : list string) (order who : list nat) (w : world)
  : option error * world :=
  match GlobFiles patterns w with
  | inl err => (Some err, w)
  | inr list =>
      let files := Sync_files list w in
      let '(errors, w1) :=
        download_each (arrival_order order (snd <$> map_to_list files)) who [] w in
      let w2 :=
        if decide (size files = 0) then print msg_in_sync w1
        else match errors with
             | [] => print (msg_downloaded (size files)) w1
             | _ :: _ =>
                 print (msg_downloaded_failed (size files - length errors)
                                              (length errors)) w1
             end in
      match errors with
      | [] => (None, w2)
      | first :: rest => (Some (ErrorfW first rest), w2)
      end
  end.

(** The loop of [Free]: [count], or the error of the first failed
    removal. *)
Fixpoint Free_loop (list : list ListItem) (count : nat) (w : world)
  : (error + nat) * world :=
  match list with
  | [] => (inr count, w)
  | item :: rest =>
      if LocalOnly (FSFile item) then Free_loop rest count w
      else
        let fn := blobPath (File (FSFile item)) false in
        if stat_not_exist fn w then Free_loop rest count w
        else
          match os_Remove E fn w with
          | (Some err, w1) => (inl err, w1)
          | (None, w1) => Free_loop rest (S count) w1
          end
  end.

Definition msg_nothing_to_free : string := "There are no files to delete." +:+ newline.
Definition msg_freed (n : nat) : string :=
  "Successfully freed " +:+ pretty n +:+ " file(s)." +:+ newline.

(** [Free(patterns)] *)
Definition Free (patterns : list string) (w : world) : option error * world :=
  match GlobFiles patterns w with
  | inl err => (Some err, w)
  | inr list =>
      match Free_loop list 0 w with
      | (inl err, w1) => (Some err, w1)
      | (inr count, w1) =>
          (None, if decide (count = 0) then print msg_nothing_to_free w1
                 else print (msg_freed count) w1)
      end
  end.

End Client.

(** ** Observations on worlds and traces *)

(** The paths [os.Remove] was called on, in order. *)
Definition removals (tr : list event) : list string :=
  omap (λ ev, match ev with EvRemove p _ => Some p | _ => None end) tr.

(** The lock files created, in order. *)
Definition creations (tr : list event) : list string :=
  omap (λ ev, match ev with EvCreate p true => Some p | _ => None end) tr.

Definition is_backup_event (ev : event) : bool :=
  match ev with
  | EvBackupCreate _ _ | EvBackupRestore _ | EvBackupDelete _ => true
  | _ => false
  end.

(** [w'] comes after [w] and no backup record was created, restored or
    deleted in between. *)
Definition quiet (w w' : world) : Prop :=
  backups w' = backups w ∧
  ∃ t, trace w' = trace w ++ t ∧ Forall (λ ev, is_backup_event ev = false) t.

(** [w'] comes from [w] by removing the files [ps], one after the other, and
    nothing else. *)
Definition freed (ps : list string) (w w' : world) : Prop :=
  NoDup ps
  ∧ (∀ p, p ∈ ps → is_Some (fs w !! p) ∧ fs w' !! p = None)
  ∧ (∀ p, p ∉ ps → fs w' !! p = fs w !! p)
  ∧ trace w' = trace w ++ ((λ p, EvRemove p true) <$> ps)
  ∧ stdout w' = stdout w.

(** The files [downloadFile] was called for, in order. *)
Definition downloaded (tr : list event) : list string :=
  omap (λ ev, match ev with EvDownload _ f => Some f | _ => None end) tr.

(** A download is the work of one of the [numWorkers] workers. *)
Definition worker_ok (ev : event) : Prop :=
  match ev with EvDownload k _ => k < numWorkers | _ => True end.

(** [w'] comes after [w], no download was started in between, nothing was
    printed and no file that was there is gone. *)
Definition settled (w w' : world) : Prop :=
  stdout w' = stdout w
  ∧ downloaded (trace w') = downloaded (trace w)
  ∧ (∃ t, trace w' = trace w ++ t ∧ Forall worker_ok t)
  ∧ ∀ p, is_Some (fs w !! p) → is_Some (fs w' !! p).

(** The successful removals of a list of names, as a function. *)
Definition unlocked (E : env) (l : list string) (w : world) : world :=
  foldl (λ w f, log (EvRemove (lock_path E f) true)
                    (set_fs (delete (lock_path E f) (fs w)) w)) w l.

(** ** A small concrete instance, to run the model on *)
Module Toy.

Definition no_faults : op → string → bool := λ _ _, false.

(** Keys and objects are single bytes; the "cipher" reverses the stream. *)
Definition toy_codec : codec byte byte := {|
  NewEncryptionKey := λ n, Some (if Nat.even n then x2a else x2b);
  WriteEncryptedKey := λ k, Some [k];
  ReadEncryptedKey := λ s, match s with k :: rest => Some (k, rest) | [] => None end;
  StartWriter := λ k, Some (λ p, Some (k :: reverse p));
  StartReader := λ k c,
    match c with
    | k' :: c' => if Byte.eqb k' k then Some (reverse c') else None
    | [] => None
    end;
  gzip_Writer := λ p, Some (x1f :: p);
  gzip_Reader := λ z,
    match z with
    | b :: p => if Byte.eqb b x1f then Some p else None
    | [] => None
    end;
  json_Encode := λ o, Some [x7b; o; x7d];
  json_Decode := λ b _,
    match b with
    | [b1; o; b2] => if Byte.eqb b1 x7b && Byte.eqb b2 x7d then Some o else None
    | _ => None
    end |}.

Definition env0 : env := Env "/d" no_faults (λ _, 0) (λ _, false).
Definition world0 : world := World ∅ 0 0 [] [] [].

(** The world after [LockMany(names)] from the empty one. *)
Definition locked (names : list string) : world :=
  match LockMany env0 1 names world0 with
  | Ret (_, w) => w
  | _ => world0
  end.

(** [a], [b] and [c] were locked; the lock file of [b] is gone since (the
    stale-lock sweep of another process, section 4.C). *)
Definition swept_b : world :=
  set_fs (delete "/d/b.lock" (fs (locked ["a"; "b"; "c"]))) (locked ["a"; "b"; "c"]).

(** The closure state [OpenManyForUpdate(["a"; "b"], ...)] returns on a
    fresh store: both reads find no file, both keys are nil. *)
Definition u_ab : update byte := Update ["a"; "b"] [None; None] false false.

(** Saving [b] fails at the final rename. *)
Definition env_b : env :=
  Env "/d" (λ o p, bool_decide (o = OpRename ∧ p = "/d/b")) (λ _, 0) (λ _, false).

(** Scenarios 2 and 3 of section 8: [a] and [b] are on disk and were
    opened for update; the closure state and the world at that point. *)
Definition opened_ab : option (update byte) * world :=
  let w1 := (SaveDataFile env0 toy_codec None "a" x01 world0).2 in
  let w2 := (SaveDataFile env0 toy_codec None "b" x02 w1).2 in
  match OpenManyForUpdate env0 toy_codec 1 ["a"; "b"] [x00; x00] [] w2 with
  | Ret ((u, _), _, w) => (u, w)
  | _ => (None, w2)
  end.

(** A client: twelve candidate files, the digest of a name is the name
    after ["h"], every download delivers one byte. *)
Definition item (f : string) (local : bool) : ListItem :=
  {| FSFile := {| File := f; LocalOnly := local |}; Set_ := "0" |}.
Definition candidates : list ListItem :=
  (λ f, item f false) <$>
    ["f01"; "f02"; "f03"; "f04"; "f05"; "f06";
     "f07"; "f08"; "f09"; "f10"; "f11"; "f12"].
Definition toy_glob : list string → world → error + list ListItem :=
  λ _ _, inr candidates.
Definition toy_hash : string → string := λ s, "h" +:+ s.
Definition toy_download : string → string → string → option (list byte) :=
  λ _ _ _, Some [x00].

(** The blobs of f01, f02 and f03 are already there. *)
Definition three_present : world :=
  set_fs (list_to_map ((λ f, (blobPath env0 toy_hash "blobs" f false, mkFile [x00] 0))
                         <$> ["f01"; "f02"; "f03"])) world0.

(** The blob of f02 cannot be removed. *)
Definition env_f02 : env :=
  Env "/d" (λ o p, bool_decide (o = OpRemove ∧ p = "/d/blobs/hf/hf02"))
      (λ _, 0) (λ _, false).

Definition u_opened : update byte :=
  match opened_ab.1 with Some u => u | None => u_ab end.

(** A store where [b] holds an envelope that cannot be read (it is
    empty) and [a] does not exist. *)
Definition corrupt_b : world := set_fs {[ "/d/b" := mkFile [] 0 ]} world0.

Definition locked_corrupt_b : world :=
  match LockMany env0 1 ["a"; "b"] corrupt_b with
  | Ret (_, w) => w
  | _ => corrupt_b
  end.

(** The lock file of [c] cannot be created. *)
Definition env_c : env :=
  Env "/d" (λ o p, bool_decide (o = OpCreate ∧ p = "/d/c.lock")) (λ _, 0) (λ _, false).

End Toy.


(** * Properties *)

(** ** Strings and sorting *)

Lemma string_app_length (s t : string) :
  String.length (s +:+ t) = String.length s + String.length t.
Proof. induction s as [|a s IH]; simpl; [done|]. by rewrite IH. Qed.

Lemma string_app_inj_r (t s1 s2 : string) : s1 +:+ t = s2 +:+ t → s1 = s2.
Proof.
  revert s2. induction s1 as [|a s1 IH]; intros [|b s2] Heq.
  - done.
  - apply (f_equal String.length) in Heq.
    rewrite !string_app_length in Heq. simpl in Heq. lia.
  - apply (f_equal String.length) in Heq.
    rewrite !string_app_length in Heq. simpl in Heq. lia.
  - change (String a (s1 +:+ t) = String b (s2 +:+ t)) in Heq.
    injection Heq as -> Heq. f_equal. by apply IH.
Qed.

Lemma sort_strings_sorted (l : list string) : StronglySorted String.le (sort_strings l).
Proof. apply StronglySorted_merge_sort; apply _. Qed.

Lemma sort_strings_perm (l : list string) : sort_strings l ≡ₚ l.
Proof. apply merge_sort_Permutation. Qed.

Lemma sort_strings_reverse_perm (l : list string) : sort_strings_reverse l ≡ₚ l.
Proof. apply merge_sort_Permutation. Qed.

(** ** Schedules deliver every result exactly once *)

Lemma arrival_perm {A} (n : nat) (sched : list nat) (pending : list A) :
  length pending = n → arrival n sched pending ≡ₚ pending.
Proof.
  revert sched pending. induction n as [|n IH]; intros sched pending Hlen; simpl.
  - by destruct pending.
  - assert (Hlt : hd 0 sched `mod` length pending < length pending)
      by (apply Nat.mod_upper_bound; lia).
    destruct (lookup_lt_is_Some_2 _ _ Hlt) as [x Hx]. rewrite Hx.
    etrans; [|symmetry; apply (delete_Permutation _ _ _ Hx)]. constructor.
    apply IH. rewrite length_delete; [lia|eauto].
Qed.

Lemma arrival_order_perm {A} (sched : list nat) (pending : list A) :
  arrival_order sched pending ≡ₚ pending.
Proof. by apply arrival_perm. Qed.

(** ** The lock manager *)

Section LockFacts.
Context (E : env).

Lemma lock_path_inj : Inj (=) (=) (lock_path E).
Proof.
  intros f g Heq. unfold lock_path, path_join in Heq.
  apply string_app_inj_r in Heq.
  by do 2 apply (inj (String.app _)) in Heq.
Qed.

Lemma os_Remove_ok p w w' :
  os_Remove E p w = (None, w') →
  is_Some (fs w !! p) ∧ w' = log (EvRemove p true) (set_fs (delete p (fs w)) w).
Proof.
  unfold os_Remove. destruct (fault E OpRemove p); [done|].
  destruct (fs w !! p) eqn:Hp; [|done]. intros [= <-]. eauto.
Qed.

Lemma os_Remove_err p w err w' :
  os_Remove E p w = (Some err, w') →
  w' = log (EvRemove p false) w ∧
  (fault E OpRemove p = true ∧ err = ErrIO OpRemove p
   ∨ fs w !! p = None ∧ err = ErrNotExist p).
Proof.
  unfold os_Remove. destruct (fault E OpRemove p).
  - intros [= <- <-]. auto.
  - destruct (fs w !! p) eqn:Hp; [done|]. intros [= <- <-]. auto.
Qed.

Lemma os_Remove_present p w :
  fault E OpRemove p = false → is_Some (fs w !! p) →
  os_Remove E p w = (None, log (EvRemove p true) (set_fs (delete p (fs w)) w)).
Proof. unfold os_Remove. intros -> [f ->]. done. Qed.

Lemma Unlock_eq fn w : Unlock E fn w = os_Remove E (lock_path E fn) w.
Proof. unfold Unlock. by destruct (os_Remove _ _ _) as [[?|] ?]. Qed.

Lemma unlocked_fs_other l w p :
  p ∉ lock_path E <$> l → fs (unlocked E l w) !! p = fs w !! p.
Proof.
  revert w. induction l as [|f l IH]; intros w Hp; simpl; [done|].
  rewrite fmap_cons, not_elem_of_cons in Hp. destruct Hp as [Hne Hp].
  rewrite IH by done. simpl. by rewrite lookup_delete_ne.
Qed.

Lemma unlocked_fs_gone l w f :
  f ∈ l → fs (unlocked E l w) !! lock_path E f = None.
Proof.
  revert w. induction l as [|g l IH]; intros w Hf; simpl.
  - by apply elem_of_nil in Hf.
  - destruct (decide (f ∈ l)) as [Hin|Hnin]; [by apply IH|].
    apply elem_of_cons in Hf as [->|?]; [|done].
    rewrite unlocked_fs_other; [simpl; apply lookup_delete_eq|].
    intros [g' [Heq ?]]%list_elem_of_fmap. apply lock_path_inj in Heq. by subst.
Qed.

Lemma unlocked_trace l w :
  trace (unlocked E l w) = trace w ++ ((λ f, EvRemove (lock_path E f) true) <$> l).
Proof.
  revert w. induction l as [|f l IH]; intros w; simpl.
  - by rewrite app_nil_r.
  - rewrite IH. simpl. by rewrite <- app_assoc.
Qed.

Lemma unlocked_frame l w :
  clock (unlocked E l w) = clock w ∧ rnd (unlocked E l w) = rnd w ∧
  backups (unlocked E l w) = backups w ∧ stdout (unlocked E l w) = stdout w.
Proof.
  revert w. induction l as [|f l IH]; intros w; simpl; [done|].
  destruct (IH (log (EvRemove (lock_path E f) true)
                    (set_fs (delete (lock_path E f) (fs w)) w))) as (-> & -> & -> & ->).
  done.
Qed.

Lemma UnlockMany_loop_app l1 l2 w :
  UnlockMany_loop E (l1 ++ l2) w =
  match UnlockMany_loop E l1 w with
  | (Some err, w1) => (Some err, w1)
  | (None, w1) => UnlockMany_loop E l2 w1
  end.
Proof.
  revert w. induction l1 as [|f l1 IH]; intros w; simpl; [done|].
  destruct (Unlock E f w) as [[err|] w1]; [done|]. apply IH.
Qed.

(** A run of [UnlockMany] without error removed the lock file of every
    name, in the order of the argument. *)
Lemma UnlockMany_loop_ok l w w' :
  UnlockMany_loop E l w = (None, w') → w' = unlocked E l w.
Proof.
  revert w. induction l as [|f l IH]; intros w; simpl.
  - by intros [= <-].
  - rewrite Unlock_eq. destruct (os_Remove E (lock_path E f) w) as [[err|] w1] eqn:Hrm; [done|].
    apply os_Remove_ok in Hrm as [_ ->]. apply IH.
Qed.

(** With every lock file present and removable, [UnlockMany] succeeds. *)
Lemma UnlockMany_loop_held l w :
  NoDup l →
  (∀ f, f ∈ l → fault E OpRemove (lock_path E f) = false) →
  (∀ f, f ∈ l → is_Some (fs w !! lock_path E f)) →
  UnlockMany_loop E l w = (None, unlocked E l w).
Proof.
  revert w. induction l as [|f l IH]; intros w Hnd Hrm Hheld; simpl; [done|].
  apply NoDup_cons in Hnd as [Hf Hnd].
  rewrite Unlock_eq, os_Remove_present by (apply Hrm || apply Hheld; left).
  apply IH; [done|intros; apply Hrm; by right|].
  intros g Hg. simpl. rewrite lookup_delete_ne; [apply Hheld; by right|].
  intros Heq%lock_path_inj. by subst.
Qed.

End LockFacts.

Lemma removals_unlock_events (E : env) (l : list string) :
  removals ((λ f, EvRemove (lock_path E f) true) <$> l) = lock_path E <$> l.
Proof.
  unfold removals. induction l as [|f l IH]; [done|].
  rewrite !fmap_cons. simpl. f_equal. exact IH.
Qed.

Lemma removals_app (t1 t2 : list event) : removals (t1 ++ t2) = removals t1 ++ removals t2.
Proof. apply omap_app. Qed.

(** When it returns no error, [UnlockMany] has removed the lock files in the
    order of its argument. *)
Lemma UnlockMany_removes_in_argument_order (E : env) (l : list string) (w w' : world) :
  (UnlockMany E l w).2 = (None, w') →
  removals (trace w') = removals (trace w) ++ (lock_path E <$> l).
Proof.
  simpl. intros ->%UnlockMany_loop_ok.
  by rewrite unlocked_trace, removals_app, removals_unlock_events.
Qed.

(** C2, at the input [LockMany(["a"; "b"])] then [UnlockMany(["a"; "b"])]:
    the locks are acquired in the order a, b, and [UnlockMany] removes the
    lock files in the order a, b, the order of its argument; the reverse
    lexicographic order of the names, which is the reverse of the
    acquisition order, is b, a. *)
Lemma UnlockMany_order_at_a_b :
  LockMany Toy.env0 1 ["a"; "b"] Toy.world0 = Ret (None, Toy.locked ["a"; "b"])
  ∧ creations (trace (Toy.locked ["a"; "b"])) = ["/d/a.lock"; "/d/b.lock"]
  ∧ (UnlockMany Toy.env0 ["a"; "b"] (Toy.locked ["a"; "b"])).2.1 = None
  ∧ removals (trace (UnlockMany Toy.env0 ["a"; "b"] (Toy.locked ["a"; "b"])).2.2)
    = ["/d/a.lock"; "/d/b.lock"]
  ∧ lock_path Toy.env0 <$> reverse (sort_strings ["a"; "b"]) = ["/d/b.lock"; "/d/a.lock"].
Proof. repeat split; vm_compute; reflexivity. Qed.

(** C3, at the input [LockMany(["b"; "a"; "c"])] where the lock file of [c]
    cannot be created: the locks of a and b are acquired in sorted order,
    the error of c is returned and no lock file remains, but the two locks
    are released in the order a, b, the order of acquisition, not in
    reverse. *)
Lemma LockMany_failure_at_b_a_c :
  ∃ w', LockMany Toy.env_c 1 ["b"; "a"; "c"] Toy.world0
        = Ret (Some (ErrIO OpCreate "/d/c.lock"), w')
  ∧ trace w' = [EvCreate "/d/a.lock" true; EvCreate "/d/b.lock" true;
                EvCreate "/d/c.lock" false;
                EvRemove "/d/a.lock" true; EvRemove "/d/b.lock" true]
  ∧ fs w' = ∅.
Proof. eexists. repeat split; vm_compute; reflexivity. Qed.

(** C9: when the removal of the lock file of [f] fails after those of [l1]
    succeeded, [UnlockMany (l1 ++ f :: l2)] returns that error; [os.Remove]
    was called for [l1] and [f] and for nothing else; and the lock file of
    every later name [g] of [l2] (not also in [l1]) is as it was, so a name
    that was locked stays locked.  The removal fails exactly when the lock
    file is missing or cannot be removed. *)
Theorem UnlockMany_stops_at_first_error (E : env) (l1 l2 : list string) (f : string)
    (w w1 w2 : world) (err : error) :
  (UnlockMany E l1 w).2 = (None, w1) →
  Unlock E f w1 = (Some err, w2) →
  (UnlockMany E (l1 ++ f :: l2) w).2 = (Some err, w2)
  ∧ removals (trace w2) = removals (trace w) ++ (lock_path E <$> l1 ++ [f])
  ∧ (∀ g, g ∈ l2 → g ∉ l1 → fs w2 !! lock_path E g = fs w !! lock_path E g)
  ∧ (fault E OpRemove (lock_path E f) = true ∨ fs w1 !! lock_path E f = None).
Proof.
  simpl. intros Hl1 Hf.
  rewrite UnlockMany_loop_app, Hl1. simpl. rewrite Hf. split; [done|].
  apply UnlockMany_loop_ok in Hl1 as ->.
  rewrite Unlock_eq in Hf. apply os_Remove_err in Hf as [-> Hwhy].
  repeat split.
  - simpl. rewrite unlocked_trace, fmap_app, !removals_app, removals_unlock_events.
    by rewrite <- app_assoc.
  - intros g _ Hg. simpl. apply unlocked_fs_other.
    intros [g' [Heq ?]]%list_elem_of_fmap. apply lock_path_inj in Heq. by subst.
  - destruct Hwhy as [[? _]|[? _]]; auto.
Qed.

(** The release of a, b, c after the lock file of b was swept: a is
    unlocked, the error for b is returned, c stays locked. *)
Lemma UnlockMany_stops_at_first_error_witness :
  (UnlockMany Toy.env0 (["a"] ++ "b" :: ["c"]) Toy.swept_b).2.1
    = Some (ErrNotExist "/d/b.lock")
  ∧ is_Some (fs (UnlockMany Toy.env0 (["a"] ++ "b" :: ["c"]) Toy.swept_b).2.2
               !! lock_path Toy.env0 "c").
Proof.
  destruct (UnlockMany_stops_at_first_error Toy.env0 ["a"] ["c"] "b" Toy.swept_b
              (UnlockMany Toy.env0 ["a"] Toy.swept_b).2.2
              (Unlock Toy.env0 "b" (UnlockMany Toy.env0 ["a"] Toy.swept_b).2.2).2
              (ErrNotExist "/d/b.lock"))
    as (Hret & _ & Hstay & _); [vm_compute; reflexivity..|].
  rewrite Hret. cbn [fst snd]. split; [reflexivity|].
  rewrite (Hstay "c"); [vm_compute; eauto|by left|].
  intros Hin. by apply list_elem_of_singleton in Hin.
Defined.

(** ** The commit closure *)

Section CommitFacts.
Context {Key Obj : Type} (E : env) (C : codec Key Obj).

Lemma UnlockMany_held (l : list string) (w : world) :
  NoDup l →
  (∀ f, f ∈ l → fault E OpRemove (lock_path E f) = false) →
  (∀ f, f ∈ l → is_Some (fs w !! lock_path E f)) →
  (UnlockMany E l w).2 = (None, unlocked E l w).
Proof. apply UnlockMany_loop_held. Qed.

(** C4: after the first invocation of the closure, every later
    invocation, whatever its arguments and whatever the world, returns
    [ErrAlreadyCommitted] if the first one committed and
    [ErrAlreadyRolledBack] otherwise, and leaves the world (so: no save, no
    unlock), the caller's error variable and the closure state as they are;
    the closure state being unchanged, this holds for all later
    invocations.  The first invocation committed exactly when it was asked
    to commit and the commit block ended with every save done. *)
Theorem commit_only_first_call_takes_effect (u : update Key) (objects : list Obj)
    (sched : list nat) (do_commit : bool) (errp : option (option error)) (w : world) :
  u_called u = false →
  let u1 := (commit E C u objects sched do_commit errp w).2.1 in
  (∀ objects' sched' do_commit' errp' w',
      commit E C u1 objects' sched' do_commit' errp' w'
      = ((Some (if u_committed u1 then ErrAlreadyCommitted else ErrAlreadyRolledBack),
          errp'), (u1, w')))
  ∧ (u_committed u1 = true ↔
     do_commit = true ∧ ∃ w1, commit_save E C u objects sched None w = inr ((None, true), w1)).
Proof.
  intros Hcalled u1.
  assert (Hu1 : u_called u1 = true ∧
                (u_committed u1 = true ↔
                 do_commit = true ∧
                 ∃ w1, commit_save E C u objects sched None w = inr ((None, true), w1))).
  { subst u1. unfold commit. rewrite Hcalled.
    destruct do_commit.
    - destruct (commit_save E C u objects sched None w)
        as [[err w1]|[[cur committed] w1]] eqn:Hsave.
      + simpl. split; [done|]. split; [done|]. intros [_ [w2 ?]]. done.
      + destruct (UnlockMany E (u_files u) w1) as [files' [uerr w2]]. simpl.
        split; [done|]. split.
        * intros ->. split; [done|]. exists w1. f_equal. f_equal. f_equal.
          unfold commit_save in Hsave.
          repeat case_match; simplify_eq; done.
        * intros [_ [w3 [= _ ? _]]]. done.
    - destruct (UnlockMany E (u_files u) w) as [files' [uerr w2]]. simpl.
      split; [done|]. split; [done|]. intros [? _]. done. }
  destruct Hu1 as [Hc1 Hiff]. split; [|exact Hiff].
  intros. unfold commit. by rewrite Hc1.
Qed.

(** C5: on a first invocation with [commit == false] nothing is saved or
    backed up: the world changes as [UnlockMany(files)] changes it.  An
    in-flight error in the caller's variable is left as it is.  With the N
    lock files in place and removable (the state [OpenManyForUpdate]
    leaves), the locks of all N names are released, the closure returns
    [ErrRolledBack], and the caller's variable is set to [ErrRolledBack]
    when the caller passed a pointer to a nil error. *)
Theorem commit_false_rolls_back (u : update Key) (objects : list Obj)
    (sched : list nat) (errp : option (option error)) (w : world) :
  u_called u = false →
  let r := commit E C u objects sched false errp w in
  r.2.2 = (UnlockMany E (u_files u) w).2.2
  ∧ u_committed r.2.1 = false
  ∧ (∀ err, errp = Some (Some err) → r.1.2 = Some (Some err))
  ∧ (errp = None → r.1.2 = None)
  ∧ (NoDup (u_files u) →
     (∀ f, f ∈ u_files u → fault E OpRemove (lock_path E f) = false) →
     (∀ f, f ∈ u_files u → is_Some (fs w !! lock_path E f)) →
     (∀ f, f ∈ u_files u → fs r.2.2 !! lock_path E f = None)
     ∧ r.1.1 = Some ErrRolledBack
     ∧ (errp = Some None → r.1.2 = Some (Some ErrRolledBack))).
Proof.
  intros Hcalled r. subst r. unfold commit. rewrite Hcalled.
  destruct (UnlockMany E (u_files u) w) as [files' [uerr w2]] eqn:Hun.
  cbn [fst snd]. split; [done|]. split; [done|].
  split; [by intros err ->|]. split; [by intros ->|].
  intros Hnd Hrm Hheld.
  pose proof (UnlockMany_held (u_files u) w Hnd Hrm Hheld) as Hok.
  rewrite Hun in Hok. cbn [snd] in Hok. injection Hok as -> ->.
  split; [|split; [done|by intros ->]].
  intros f Hf. by apply unlocked_fs_gone.
Qed.

End CommitFacts.

(** On the store where a and b are locked: a commit, then a second call. *)
Lemma commit_only_first_call_takes_effect_witness :
  let u1 := (commit Toy.env0 Toy.toy_codec Toy.u_ab [x01; x02] [] true None
               (Toy.locked ["a"; "b"])).2.1 in
  u_committed u1 = true
  ∧ commit Toy.env0 Toy.toy_codec u1 [x03; x04] [] true None Toy.world0
    = ((Some ErrAlreadyCommitted, None), (u1, Toy.world0)).
Proof.
  destruct (commit_only_first_call_takes_effect Toy.env0 Toy.toy_codec Toy.u_ab
              [x01; x02] [] true None (Toy.locked ["a"; "b"]) eq_refl) as [Hlater _].
  split; [reflexivity|].
  exact (Hlater [x03; x04] [] true None Toy.world0).
Defined.

(** The deferred [commit(false, &retErr)] with an in-flight error, and with
    none. *)
Lemma commit_false_rolls_back_witness :
  (commit Toy.env0 Toy.toy_codec Toy.u_ab [x01; x02] [] false (Some (Some ErrDecode))
     (Toy.locked ["a"; "b"])).1.2 = Some (Some ErrDecode)
  ∧ (commit Toy.env0 Toy.toy_codec Toy.u_ab [x01; x02] [] false (Some None)
       (Toy.locked ["a"; "b"])).1.2 = Some (Some ErrRolledBack)
  ∧ fs (commit Toy.env0 Toy.toy_codec Toy.u_ab [x01; x02] [] false (Some None)
          (Toy.locked ["a"; "b"])).2.2 !! lock_path Toy.env0 "b" = None.
Proof.
  split.
  - apply (commit_false_rolls_back Toy.env0 Toy.toy_codec Toy.u_ab [x01; x02] []
             (Some (Some ErrDecode)) (Toy.locked ["a"; "b"]) eq_refl).
    reflexivity.
  - destruct (commit_false_rolls_back Toy.env0 Toy.toy_codec Toy.u_ab [x01; x02] []
                (Some None) (Toy.locked ["a"; "b"]) eq_refl)
      as (_ & _ & _ & _ & Hrel).
    destruct Hrel as (Hgone & _ & Hvar).
    + apply NoDup_cons; split; [by intros ?%list_elem_of_singleton|apply NoDup_singleton].
    + intros f _. reflexivity.
    + intros f Hf. vm_compute in Hf.
      apply elem_of_cons in Hf as [->|Hf]; [vm_compute; eauto|].
      apply list_elem_of_singleton in Hf as ->. vm_compute; eauto.
    + split; [by apply Hvar|]. apply Hgone. vm_compute. set_solver.
Defined.

(** ** The envelope codec *)

Section CodecFacts.
Context {Key Obj : Type} (E : env) (C : codec Key Obj).

Lemma os_OpenFile_excl_ok p w w' :
  os_OpenFile_excl E p w = (None, w') →
  fs w' = <[p := mkFile [] (clock w)]> (fs w) ∧ clock w' = clock w.
Proof.
  unfold os_OpenFile_excl. destruct (fs w !! p); [done|].
  destruct (fault E OpCreate p); [done|]. by intros [= <-].
Qed.

Lemma os_Write_ok p data w w' :
  os_Write E p data w = (None, w') →
  ∃ f, fs w !! p = Some f ∧
       fs w' = <[p := mkFile (f_data f ++ data) (clock w)]> (fs w) ∧
       clock w' = clock w.
Proof.
  unfold os_Write. destruct (fault E OpWrite p); [done|].
  destruct (fs w !! p) as [f|]; [|done]. intros [= <-]. eauto.
Qed.

Lemma os_Rename_ok src dst w w' :
  os_Rename E src dst w = (None, w') →
  ∃ f, fs w !! src = Some f ∧ fs w' = <[dst := f]> (delete src (fs w)).
Proof.
  unfold os_Rename. destruct (fault E OpRename dst); [done|].
  destruct (fs w !! src) as [f|]; [|done]. intros [= <-]. eauto.
Qed.

(** What a successful [SaveDataFile] leaves at the path of the file: the
    wrapped key, then the encrypted, compressed serialisation. *)
Lemma SaveDataFile_envelope k n obj w w' :
  SaveDataFile E C k n obj w = (None, w') →
  ∃ k' wk enc js gz ct mtime,
    (∀ k0, k = Some k0 → k' = k0) ∧
    (k = None → NewEncryptionKey C (rnd w) = Some k') ∧
    WriteEncryptedKey C k' = Some wk ∧ StartWriter C k' = Some enc ∧
    json_Encode C obj = Some js ∧ gzip_Writer C js = Some gz ∧ enc gz = Some ct ∧
    fs w' !! data_path E n = Some (mkFile (wk ++ ct) mtime).
Proof.
  unfold SaveDataFile.
  destruct (SaveDataFile_key E C k (data_path E n) (log (EvSave n) w))
    as [[err|k'] w1] eqn:Hkey; [done|].
  destruct (os_OpenFile_excl E _ w1) as [[err|] w2] eqn:Hopen; [done|].
  destruct (WriteEncryptedKey C k') as [wk|] eqn:Hwk; [|done].
  destruct (os_Write E _ wk w2) as [[err|] w3] eqn:Hw1; [done|].
  destruct (StartWriter C k') as [enc|] eqn:Henc; [|done].
  destruct (json_Encode C obj) as [js|] eqn:Hjs; [|done].
  destruct (gzip_Writer C js) as [gz|] eqn:Hgz; [|done].
  destruct (enc gz) as [ct|] eqn:Hct; [|done].
  destruct (os_Write E _ ct w3) as [[err|] w4] eqn:Hw2; [done|].
  intros Hren.
  apply os_OpenFile_excl_ok in Hopen as [Hfs2 Hc2].
  apply os_Write_ok in Hw1 as (f2 & Hf2 & Hfs3 & Hc3).
  apply os_Write_ok in Hw2 as (f3 & Hf3 & Hfs4 & Hc4).
  apply os_Rename_ok in Hren as (f4 & Hf4 & Hfs').
  rewrite Hfs2, lookup_insert_eq in Hf2. injection Hf2 as <-.
  rewrite Hfs3, lookup_insert_eq in Hf3. injection Hf3 as <-.
  rewrite Hfs4, lookup_insert_eq in Hf4. injection Hf4 as <-.
  exists k', wk, enc, js, gz, ct, (clock w3).
  repeat split; try done.
  - intros k0 ->. simpl in Hkey. by injection Hkey as ->.
  - intros ->. unfold SaveDataFile_key in Hkey. simpl in Hkey.
    destruct (NewEncryptionKey C (rnd w)) as [k0|]; [|done].
    destruct (createParentIfNotExist E (data_path E n)); [done|].
    by injection Hkey as ->.
  - rewrite Hfs'. by rewrite lookup_insert_eq.
Qed.

(** C7: with primitives that read back what they wrote (section 4.A), a
    successful [SaveDataFile(k, n, obj)] followed by [ReadDataFile(n, &out)]
    succeeds and leaves [obj] in [out], whatever [out] held, for a nil [k]
    as for a given one; the key returned is the one the save used, so [k]
    itself when it was given. *)
Theorem save_then_read_roundtrip (k : option Key) (n : string) (obj out : Obj)
    (w w' : world) :
  codec_ok C →
  SaveDataFile E C k n obj w = (None, w') →
  ∃ k', ReadDataFile E C n out w' = ((Some k', None), obj)
        ∧ (∀ k0, k = Some k0 → k' = k0).
Proof.
  intros Hok Hsave.
  apply SaveDataFile_envelope in Hsave
    as (k' & wk & enc & js & gz & ct & mtime & Hk & _ & Hwk & Henc & Hjs & Hgz & Hct & Hfs).
  exists k'. split; [|done].
  unfold ReadDataFile. rewrite Hfs. simpl.
  rewrite (key_roundtrip C Hok _ _ _ Hwk).
  rewrite (stream_roundtrip C Hok _ _ _ _ Henc Hct).
  rewrite (gzip_roundtrip C Hok _ _ Hgz).
  by rewrite (json_roundtrip C Hok _ _ out Hjs).
Qed.

End CodecFacts.

Lemma toy_codec_ok : codec_ok Toy.toy_codec.
Proof.
  split.
  - intros k wk rest [= <-]. done.
  - intros k enc p c [= <-] [= <-]. simpl.
    rewrite (Byte.byte_dec_lb (x:=k) (y:=k) eq_refl). by rewrite reverse_involutive.
  - intros p z [= <-]. done.
  - intros o b prior [= <-]. done.
Qed.

(** Scenario 1 of section 8, on the toy codec: saving with a nil key on a
    fresh store, then reading. *)
Lemma save_then_read_roundtrip_witness :
  ∃ k', ReadDataFile Toy.env0 Toy.toy_codec "album-list" x00
          (SaveDataFile Toy.env0 Toy.toy_codec None "album-list" x07 Toy.world0).2
        = ((Some k', None), x07).
Proof.
  destruct (save_then_read_roundtrip Toy.env0 Toy.toy_codec None "album-list" x07 x00
              Toy.world0
              (SaveDataFile Toy.env0 Toy.toy_codec None "album-list" x07 Toy.world0).2
              toy_codec_ok) as [k' [Hread _]]; [vm_compute; reflexivity|].
  exists k'. exact Hread.
Defined.

(** ** Steps that leave the backup records alone *)

Lemma quiet_refl (w : world) : quiet w w.
Proof. split; [done|]. exists []. by rewrite app_nil_r. Qed.

Lemma quiet_trans (w1 w2 w3 : world) : quiet w1 w2 → quiet w2 w3 → quiet w1 w3.
Proof.
  intros [Hb1 (t1 & Ht1 & Hq1)] [Hb2 (t2 & Ht2 & Hq2)]. split; [congruence|].
  exists (t1 ++ t2). rewrite Ht2, Ht1, <- app_assoc. split; [done|].
  by apply Forall_app.
Qed.

Lemma quiet_log (ev : event) (w : world) : is_backup_event ev = false → quiet w (log ev w).
Proof. intros Hev. split; [done|]. exists [ev]. split; [done|]. by constructor. Qed.

Lemma quiet_set_fs (m : gmap string file) (w : world) : quiet w (set_fs m w).
Proof. split; [done|]. exists []. by rewrite app_nil_r. Qed.

Lemma quiet_set_rnd (n : nat) (w : world) : quiet w (set_rnd n w).
Proof. split; [done|]. exists []. by rewrite app_nil_r. Qed.

Section QuietSteps.
Context {Key Obj : Type} (E : env) (C : codec Key Obj).

Lemma os_OpenFile_excl_quiet p w : quiet w (os_OpenFile_excl E p w).2.
Proof.
  unfold os_OpenFile_excl. destruct (fs w !! p); [by apply quiet_log|].
  destruct (fault E OpCreate p); [by apply quiet_log|]. simpl.
  eapply quiet_trans; [apply quiet_set_fs|by apply quiet_log].
Qed.

Lemma os_Write_quiet p data w : quiet w (os_Write E p data w).2.
Proof.
  unfold os_Write. destruct (fault E OpWrite p); [apply quiet_refl|].
  destruct (fs w !! p); [apply quiet_set_fs|apply quiet_refl].
Qed.

Lemma os_Rename_quiet src dst w : quiet w (os_Rename E src dst w).2.
Proof.
  unfold os_Rename. destruct (fault E OpRename dst); [by apply quiet_log|].
  destruct (fs w !! src); [|by apply quiet_log]. simpl.
  eapply quiet_trans; [apply quiet_set_fs|by apply quiet_log].
Qed.

Lemma os_Remove_quiet p w : quiet w (os_Remove E p w).2.
Proof.
  unfold os_Remove. destruct (fault E OpRemove p); [by apply quiet_log|].
  destruct (fs w !! p); [|by apply quiet_log]. simpl.
  eapply quiet_trans; [apply quiet_set_fs|by apply quiet_log].
Qed.

Lemma SaveDataFile_key_quiet k p w : quiet w (SaveDataFile_key E C k p w).2.
Proof.
  unfold SaveDataFile_key. destruct k; [apply quiet_refl|].
  destruct (NewEncryptionKey C (rnd w)); [|apply quiet_set_rnd].
  destruct (createParentIfNotExist E p); apply quiet_set_rnd.
Qed.

Lemma SaveDataFile_quiet k n obj w : quiet w (SaveDataFile E C k n obj w).2.
Proof.
  unfold SaveDataFile.
  eapply quiet_trans; [apply (quiet_log (EvSave n)); done|].
  pose proof (SaveDataFile_key_quiet k (data_path E n) (log (EvSave n) w)) as Hq1.
  destruct (SaveDataFile_key E C k (data_path E n) (log (EvSave n) w))
    as [[err|k'] w1]; [exact Hq1|].
  eapply quiet_trans; [exact Hq1|]. clear Hq1.
  match goal with |- context [os_OpenFile_excl E ?t w1] =>
    pose proof (os_OpenFile_excl_quiet t w1) as Hq2;
    destruct (os_OpenFile_excl E t w1) as [[err|] w2]; [exact Hq2|];
    eapply quiet_trans; [exact Hq2|]; clear Hq2
  end.
  destruct (WriteEncryptedKey C k') as [wk|]; [|apply quiet_refl].
  match goal with |- context [os_Write E ?t wk w2] =>
    pose proof (os_Write_quiet t wk w2) as Hq3;
    destruct (os_Write E t wk w2) as [[err|] w3]; [exact Hq3|];
    eapply quiet_trans; [exact Hq3|]; clear Hq3
  end.
  destruct (StartWriter C k') as [enc|]; [|apply quiet_refl].
  destruct (json_Encode C obj) as [js|]; [|apply quiet_refl].
  destruct (gzip_Writer C js) as [gz|]; [|apply quiet_refl].
  destruct (enc gz) as [ct|]; [|apply quiet_refl].
  match goal with |- context [os_Write E ?t ct w3] =>
    pose proof (os_Write_quiet t ct w3) as Hq4;
    destruct (os_Write E t ct w3) as [[err|] w4]; [exact Hq4|];
    eapply quiet_trans; [exact Hq4|]; clear Hq4
  end.
  apply os_Rename_quiet.
Qed.

Lemma save_each_quiet jobs errs w : quiet w (save_each E C jobs errs w).2.
Proof.
  revert errs w. induction jobs as [|[[k file] obj] jobs IH]; intros errs w; simpl.
  - apply quiet_refl.
  - pose proof (SaveDataFile_quiet k file obj w) as Hq.
    destruct (SaveDataFile E C k file obj w) as [[err|] w1];
      (eapply quiet_trans; [exact Hq|apply IH]).
Qed.

Lemma UnlockMany_loop_frame l w :
  quiet w (UnlockMany_loop E l w).2 ∧
  ∀ p, p ∉ lock_path E <$> l → fs (UnlockMany_loop E l w).2 !! p = fs w !! p.
Proof.
  revert w. induction l as [|f l IH]; intros w; simpl.
  - split; [apply quiet_refl|done].
  - rewrite Unlock_eq.
    pose proof (os_Remove_quiet (lock_path E f) w) as Hq.
    destruct (os_Remove E (lock_path E f) w) as [[err|] w1] eqn:Hrm.
    + split; [exact Hq|]. intros p _.
      apply os_Remove_err in Hrm as [-> _]. done.
    + destruct (IH w1) as [Hq1 Hfs1]. split; [by eapply quiet_trans|].
      intros p Hp. apply not_elem_of_cons in Hp as [Hne Hp].
      rewrite Hfs1 by done. apply os_Remove_ok in Hrm as [_ ->]. simpl.
      by rewrite lookup_delete_ne.
Qed.

Lemma data_path_inj : Inj (=) (=) (data_path E).
Proof.
  intros f g Heq. unfold data_path, path_join in Heq.
  by do 2 apply (inj (String.app _)) in Heq.
Qed.

(** [backup.restore()] puts every recorded original back. *)
Lemma backup_restore_originals b w f d :
  (f, Some d) ∈ b_files b →
  (∀ o, (f, o) ∈ b_files b → o = Some d) →
  f_data <$> (fs (backup_restore E b w) !! data_path E f) = Some d.
Proof.
  unfold backup_restore. simpl. generalize (fs w). generalize (clock w). intros t.
  induction (b_files b) as [|[g o] l IH] using rev_ind; intros m Hin Hfun.
  - by apply elem_of_nil in Hin.
  - rewrite foldl_app. simpl. destruct (decide (g = f)) as [->|Hne].
    + rewrite (Hfun o) by (apply elem_of_app; right; by left).
      by rewrite lookup_insert_eq.
    + assert (Hin' : (f, Some d) ∈ l).
      { apply elem_of_app in Hin as [?|Hin]; [done|].
        apply list_elem_of_singleton in Hin. congruence. }
      assert (IH' := IH m Hin' (λ o' Ho', Hfun o' (proj2 (elem_of_app _ _ _) (or_introl Ho')))).
      destruct o as [orig|]; [|exact IH'].
      rewrite lookup_insert_ne; [exact IH'|].
      intros Heq%data_path_inj. done.
Qed.

End QuietSteps.

(** ** The commit block: backup, saves, restore or delete *)

Section BackupFacts.
Context {Key Obj : Type} (E : env) (C : codec Key Obj).

(** C1: a first invocation of the closure with [commit == true].

    With at most one file no backup record is created (and none is
    restored or deleted); failed saves are returned as one aggregated
    error.

    With more than one file [createBackup] runs first, before any save.  If
    it fails, its error is returned and nothing is saved.  Otherwise the
    record holds the envelopes the N names have on disk at that point; the
    saves follow; then, if a save failed, the backup is restored, the
    aggregated save errors are returned (and written to the caller's
    variable when it held nil), nothing is committed, and every name that
    had an envelope has it again when the closure returns (no file name of
    the transaction being the lock file of another); if every save
    succeeded the backup record is deleted and the closure is committed.
    Either way no record with the identity of this backup remains. *)
Theorem commit_true_backup_protocol (u : update Key) (objects : list Obj)
    (sched : list nat) (errp : option (option error)) (w : world) :
  u_called u = false →
  let files := u_files u in
  let jobs := arrival_order sched (save_jobs u objects) in
  let r := commit E C u objects sched true errp w in
  let caller (cur : option error) :=
    match errp with Some None => Some cur | _ => errp end in
  ((length files ≤ 1)%nat →
     quiet w r.2.2
     ∧ ∀ err errs, (save_each E C jobs [] w).1 = err :: errs →
         r.1.1 = Some (Errorf "s.SaveDataFile" (err :: errs)))
  ∧ (1 < length files →
     match createBackup E files w with
     | ((_, Some err), w1) =>
         r.1.1 = Some err ∧ r.2.2 = w1 ∧ fs w1 = fs w
         ∧ trace w1 = trace w ++ [EvBackupCreate files false]
     | ((None, None), _) => False
     | ((Some b, None), w1) =>
         let saved := save_each E C jobs [] w1 in
         b_files b = (λ f, (f, f_data <$> fs w !! data_path E f)) <$> files
         ∧ ∃ t_save t_unlock,
             Forall (λ ev, is_backup_event ev = false) t_save
             ∧ Forall (λ ev, is_backup_event ev = false) t_unlock
             ∧ trace saved.2 = trace w ++ EvBackupCreate files true :: t_save
             ∧ (∀ b', b' ∈ backups r.2.2 → b_id b' ≠ b_id b)
             ∧ match saved.1 with
               | [] =>
                   trace r.2.2 = trace saved.2 ++ EvBackupDelete (b_id b) :: t_unlock
                   ∧ u_committed r.2.1 = true
               | err :: errs =>
                   trace r.2.2 = trace saved.2 ++ EvBackupRestore (b_id b) :: t_unlock
                   ∧ r.1.1 = Some (Errorf "s.SaveDataFile" (err :: errs))
                   ∧ r.1.2 = caller (Some (Errorf "s.SaveDataFile" (err :: errs)))
                   ∧ u_committed r.2.1 = false
                   ∧ ((∀ f g, f ∈ files → g ∈ files → data_path E f ≠ lock_path E g) →
                      ∀ f d, f ∈ files →
                        f_data <$> (fs w !! data_path E f) = Some d →
                        f_data <$> (fs r.2.2 !! data_path E f) = Some d)
               end
     end).
Proof.
  intros Hcalled files jobs r caller. subst r. unfold commit. rewrite Hcalled.
  unfold commit_save. fold files. fold jobs. split.
  - intros Hle. destruct (decide (1 < length files)) as [?|_]; [lia|].
    pose proof (save_each_quiet E C jobs [] w) as Hq.
    destruct (save_each E C jobs [] w) as [errorList w2]. cbn [fst snd] in *.
    destruct (UnlockMany_loop_frame E files
                (match errorList with [] => w2 | _ :: _ => w2 end)) as [Hq2 _].
    destruct errorList as [|err errs]; unfold UnlockMany; cbn [fst snd];
      destruct (UnlockMany_loop E files w2) as [uerr w3]; cbn [fst snd] in *.
    + split; [by eapply quiet_trans|]. done.
    + split; [by eapply quiet_trans|]. intros ? ? [= <- <-]. by destruct uerr.
  - intros Hlt. destruct (decide (1 < length files)) as [_|?]; [|lia].
    unfold createBackup. destruct (backup_fault E files).
    { cbn [fst snd]. done. }
    set (b := Backup (clock w) ((λ f, (f, f_data <$> fs w !! data_path E f)) <$> files)).
    set (w1 := log (EvBackupCreate files true) (set_backups (backups w ++ [b]) w)).
    cbn zeta. split; [done|].
    pose proof (save_each_quiet E C jobs [] w1) as [Hb2 (t_save & Ht_save & Hq_save)].
    destruct (save_each E C jobs [] w1) as [errorList w2]. cbn [fst snd] in *.
    assert (Hforget : ∀ l b', b' ∈ forget_backup b l → b_id b' ≠ b_id b).
    { intros l b' Hin. unfold forget_backup in Hin.
      by apply list_elem_of_filter in Hin as [? _]. }
    destruct errorList as [|err errs].
    + destruct (UnlockMany_loop_frame E files (backup_delete b w2))
        as [[Hb3 (t_unlock & Ht_unlock & Hq_unlock)] _].
      unfold UnlockMany. cbn [fst snd].
      destruct (UnlockMany_loop E files (backup_delete b w2)) as [uerr w3].
      cbn [fst snd] in *. exists t_save, t_unlock.
      split; [done|]. split; [done|].
      split; [by rewrite Ht_save; simpl; rewrite <- app_assoc|].
      split; [rewrite Hb3; apply Hforget|].
      split; [|done]. rewrite Ht_unlock. simpl. by rewrite <- app_assoc.
    + destruct (UnlockMany_loop_frame E files (backup_restore E b w2))
        as [[Hb3 (t_unlock & Ht_unlock & Hq_unlock)] Hfs3].
      unfold UnlockMany. cbn [fst snd].
      destruct (UnlockMany_loop E files (backup_restore E b w2)) as [uerr w3].
      cbn [fst snd] in *. exists t_save, t_unlock.
      split; [done|]. split; [done|].
      split; [by rewrite Ht_save; simpl; rewrite <- app_assoc|].
      split; [rewrite Hb3; apply Hforget|].
      split; [rewrite Ht_unlock; simpl; by rewrite <- app_assoc|].
      split; [by destruct uerr|].
      split; [by destruct uerr, errp as [[?|]|]|].
      split; [done|].
      intros Hdisj f d Hf Hd. rewrite Hfs3.
      * apply backup_restore_originals.
        -- subst b. simpl. apply list_elem_of_fmap. exists f. by rewrite Hd.
        -- subst b. simpl. intros o [g [[= <- ->] _]]%list_elem_of_fmap. done.
      * intros [g [Heq Hg]]%list_elem_of_fmap. by apply (Hdisj f g).
Qed.

End BackupFacts.

(** Scenario 3 of section 8: [a] and [b] are on disk, the save of [b]
    fails; the commit returns the aggregated error and both original
    envelopes are in place. *)
Lemma commit_true_backup_protocol_witness :
  let r := commit Toy.env_b Toy.toy_codec Toy.u_opened [x09; x08] [] true None
             Toy.opened_ab.2 in
  r.1.1 = Some (Errorf "s.SaveDataFile" [ErrIO OpRename "/d/b"])
  ∧ f_data <$> (fs r.2.2 !! data_path Toy.env_b "a")
    = f_data <$> (fs Toy.opened_ab.2 !! data_path Toy.env_b "a")
  ∧ f_data <$> (fs r.2.2 !! data_path Toy.env_b "b")
    = f_data <$> (fs Toy.opened_ab.2 !! data_path Toy.env_b "b").
Proof.
  intros r.
  destruct (commit_true_backup_protocol Toy.env_b Toy.toy_codec Toy.u_opened
              [x09; x08] [] None Toy.opened_ab.2 eq_refl) as [_ Hmany].
  assert (Hlen : 1 < length (u_files Toy.u_opened)) by (vm_compute; lia).
  specialize (Hmany Hlen).
  assert (Hcb : (createBackup Toy.env_b (u_files Toy.u_opened) Toy.opened_ab.2).1
                = (Some (Backup 0 [("a", f_data <$> fs Toy.opened_ab.2 !! "/d/a");
                                   ("b", f_data <$> fs Toy.opened_ab.2 !! "/d/b")]), None))
    by (vm_compute; reflexivity).
  destruct (createBackup Toy.env_b (u_files Toy.u_opened) Toy.opened_ab.2)
    as [[b' err'] w1] eqn:Hcreate.
  cbn [fst] in Hcb. injection Hcb as -> ->.
  destruct Hmany as (_ & t_save & t_unlock & _ & _ & _ & _ & Hcase).
  assert (Hw1 : w1 = (createBackup Toy.env_b (u_files Toy.u_opened) Toy.opened_ab.2).2)
    by (by rewrite Hcreate).
  assert (Hsaved : (save_each Toy.env_b Toy.toy_codec
                      (arrival_order [] (save_jobs Toy.u_opened [x09; x08])) [] w1).1
                   = [ErrIO OpRename "/d/b"])
    by (rewrite Hw1; vm_compute; reflexivity).
  rewrite Hsaved in Hcase.
  destruct Hcase as (_ & Hret & _ & _ & Horig).
  split; [exact Hret|].
  assert (Hdisj : ∀ f g, f ∈ u_files Toy.u_opened → g ∈ u_files Toy.u_opened →
                         data_path Toy.env_b f ≠ lock_path Toy.env_b g).
  { intros f g Hf Hg. vm_compute in Hf, Hg.
    apply elem_of_cons in Hf as [->|Hf]; [|apply list_elem_of_singleton in Hf as ->];
      (apply elem_of_cons in Hg as [->|Hg]; [|apply list_elem_of_singleton in Hg as ->]);
      vm_compute; discriminate. }
  split.
  - etrans; [apply (Horig Hdisj "a"); [vm_compute; by left|vm_compute; reflexivity]|].
    vm_compute; reflexivity.
  - etrans; [apply (Horig Hdisj "b"); [vm_compute; right; by left|vm_compute; reflexivity]|].
    vm_compute; reflexivity.
Defined.

(** ** Opening for update *)

Section OpenFacts.
Context {Key Obj : Type} (E : env) (C : codec Key Obj).

Lemma tryToRemoveStaleLock_other lockf deadline w p :
  p ≠ lockf → fs (tryToRemoveStaleLock E lockf deadline w) !! p = fs w !! p.
Proof.
  intros Hne. unfold tryToRemoveStaleLock. destruct (os_Stat lockf w); [done|].
  destruct (decide _); [|done]. unfold os_Remove.
  destruct (fault E OpRemove lockf); [done|].
  destruct (fs w !! lockf); [|done]. simpl. by rewrite lookup_delete_ne.
Qed.

(** A successful [Lock] leaves its lock file in place and touches no other
    path. *)
Lemma Lock_loop_ok fuel lockf deadline w w' :
  Lock_loop E fuel lockf deadline w = Ret (None, w') →
  is_Some (fs w' !! lockf) ∧ ∀ p, p ≠ lockf → fs w' !! p = fs w !! p.
Proof.
  revert w. induction fuel as [|fuel IH]; intros w; simpl; [done|].
  unfold os_OpenFile_excl. destruct (fs w !! lockf) as [f|] eqn:Hf.
  - simpl. intros Hloop. apply IH in Hloop as [Hin Hother]. split; [done|].
    intros p Hp. rewrite Hother by done. simpl.
    by rewrite tryToRemoveStaleLock_other.
  - destruct (fault E OpCreate lockf); simpl; [done|].
    unfold os_Close. destruct (fault E OpClose lockf); [done|].
    intros [= <-]. simpl. split; [rewrite lookup_insert_eq; eauto|].
    intros p Hp. by rewrite lookup_insert_ne.
Qed.

Lemma Lock_ok fuel f w w' :
  Lock E fuel f w = Ret (None, w') →
  is_Some (fs w' !! lock_path E f) ∧
  ∀ p, is_Some (fs w !! p) → is_Some (fs w' !! p).
Proof.
  unfold Lock. destruct (createParentIfNotExist E (lock_path E f)); [done|].
  simpl. intros [Hin Hother]%Lock_loop_ok. split; [done|].
  intros p Hp. destruct (decide (p = lock_path E f)) as [->|Hne]; [done|].
  by rewrite Hother.
Qed.

Lemma LockMany_loop_ok fuel sorted locks w w' :
  LockMany_loop E fuel sorted locks w = Ret (None, w') →
  (∀ f, f ∈ sorted → is_Some (fs w' !! lock_path E f)) ∧
  (∀ p, is_Some (fs w !! p) → is_Some (fs w' !! p)).
Proof.
  revert locks w. induction sorted as [|f rest IH]; intros locks w; simpl.
  - intros [= <-]. split; [by intros f ?%elem_of_nil|done].
  - destruct (Lock E fuel f w) as [[[err|] w1]| |] eqn:Hlock; try done.
    intros Hrest. apply Lock_ok in Hlock as [Hf Hmono1].
    apply IH in Hrest as [Hall Hmono2]. split; [|by auto].
    intros g [->|Hg]%elem_of_cons; auto.
Qed.

(** When [LockMany] returns without error, every name is locked. *)
Lemma LockMany_ok fuel files w w' :
  LockMany E fuel files w = Ret (None, w') →
  ∀ f, f ∈ files → is_Some (fs w' !! lock_path E f).
Proof.
  unfold LockMany. intros [Hall _]%LockMany_loop_ok f Hf. apply Hall.
  by rewrite sort_strings_perm.
Qed.

Lemma foldl_collect_read (vs : list (readValue Key)) st :
  (foldl collect_read st vs).1 = st.1 ++ omap read_failure vs ∧
  (foldl collect_read st vs).2 = foldl (λ ks v, <[rv_i v := rv_k v]> ks) st.2 vs.
Proof.
  revert st. induction vs as [|v vs IH]; intros st; simpl.
  - by rewrite app_nil_r.
  - destruct (IH (collect_read st v)) as [-> ->]. unfold collect_read. simpl.
    destruct (read_failure v); simpl; [|done]. by rewrite <- app_assoc.
Qed.

Lemma keys_length (vs : list (readValue Key)) ks :
  length (foldl (λ ks v, <[rv_i v := rv_k v]> ks) ks vs) = length ks.
Proof.
  revert ks. induction vs as [|v vs IH]; intros ks; simpl; [done|].
  by rewrite IH, length_insert.
Qed.

(** [keys[v.i] = v.k], whatever the order of arrival. *)
Lemma keys_lookup (vs : list (readValue Key)) ks i v :
  v ∈ vs → rv_i v = i →
  (∀ v', v' ∈ vs → rv_i v' = i → rv_k v' = rv_k v) →
  i < length ks →
  foldl (λ ks v, <[rv_i v := rv_k v]> ks) ks vs !! i = Some (rv_k v).
Proof.
  intros Hin Hi Hfun Hlt. induction vs as [|v0 vs IH] using rev_ind.
  - by apply elem_of_nil in Hin.
  - rewrite foldl_app. simpl. destruct (decide (rv_i v0 = i)) as [Hv0|Hv0].
    + rewrite Hv0, list_lookup_insert_eq by (by rewrite keys_length).
      f_equal. apply Hfun; [|done]. apply elem_of_app. right. by left.
    + rewrite list_lookup_insert_ne by done. apply IH.
      * apply elem_of_app in Hin as [?|Hin]; [done|].
        apply list_elem_of_singleton in Hin. congruence.
      * intros v' Hv'. apply Hfun. apply elem_of_app. by left.
Qed.

(** A file that is not there reads as [os.ErrNotExist], which is not
    counted as a failure, with a nil key. *)
Lemma ReadDataFile_not_found file obj w :
  fs w !! data_path E file = None →
  ReadDataFile E C file obj w = ((None, Some (ErrNotExist (data_path E file))), obj).
Proof. unfold ReadDataFile. by intros ->. Qed.

(** [SaveDataFile] with a nil key writes under a key it mints. *)
Lemma SaveDataFile_nil_key_is_fresh n obj w w' :
  SaveDataFile E C None n obj w = (None, w') →
  ∃ k wk rest mtime,
    NewEncryptionKey C (rnd w) = Some k ∧ WriteEncryptedKey C k = Some wk ∧
    fs w' !! data_path E n = Some (mkFile (wk ++ rest) mtime).
Proof.
  intros Hsave.
  pose proof (SaveDataFile_envelope E C _ _ _ _ _ Hsave)
    as (k' & wk & enc & js & gz & ct & mtime & _ & Hnew & Hwk & _ & _ & _ & _ & Hfs).
  exists k', wk, ct, mtime. auto.
Qed.

Lemma read_all_values files objects w :
  fst <$> read_all E C files objects w
  = imap (λ i fo, ReadValue i (ReadDataFile E C fo.1 fo.2 w).1.1
                              (ReadDataFile E C fo.1 fo.2 w).1.2)
         (zip files objects).
Proof. unfold read_all. by rewrite fmap_imap. Qed.

(** C6: once the N locks are held, the reads decide.  The failures are the
    read errors other than [os.ErrNotExist].  Without any, the call returns
    the closure, with [keys[i]] the key read from [files[i]], nil where
    the file does not exist (a later [SaveDataFile] with that nil key
    mints a fresh one, see [SaveDataFile_nil_key_is_fresh]), and the locks
    stay held.  With a failure the call returns no closure and an error
    made of the failures, after [UnlockMany(files)], which leaves none of
    the N lock files when the names are distinct and the lock files can be
    removed. *)
Theorem OpenManyForUpdate_reads (fuel : nat) (files : list string) (objects : list Obj)
    (sched : list nat) (w w1 : world) :
  length files = length objects →
  LockMany E fuel files w = Ret (None, w1) →
  let reads := read_all E C files objects w1 in
  let failures := omap read_failure (fst <$> reads) in
  (∀ err, err ∈ failures ↔
     ∃ i file obj, files !! i = Some file ∧ objects !! i = Some obj ∧
       (ReadDataFile E C file obj w1).1.2 = Some err ∧ is_ErrNotExist err = false)
  ∧ match failures with
    | [] =>
        ∃ keys,
          OpenManyForUpdate E C fuel files objects sched w
          = Ret ((Some (Update files keys false false), None), snd <$> reads, w1)
          ∧ length keys = length files
          ∧ (∀ f, f ∈ files → is_Some (fs w1 !! lock_path E f))
          ∧ ∀ i file obj, files !! i = Some file → objects !! i = Some obj →
              keys !! i = Some (ReadDataFile E C file obj w1).1.1
              ∧ (fs w1 !! data_path E file = None → keys !! i = Some None)
    | _ :: _ =>
        ∃ errorList,
          errorList ≡ₚ failures
          ∧ OpenManyForUpdate E C fuel files objects sched w
            = Ret ((None, Some (Errorf "s.ReadDataFile" errorList)), snd <$> reads,
                   (UnlockMany E files w1).2.2)
          ∧ (NoDup files →
             (∀ f, f ∈ files → fault E OpRemove (lock_path E f) = false) →
             ∀ f, f ∈ files → fs (UnlockMany E files w1).2.2 !! lock_path E f = None)
    end.
Proof.
  intros Hlen Hlock reads failures. split.
  { intros err. subst failures reads. rewrite read_all_values, list_elem_of_omap. split.
    - intros (v & Hv & Hfail). apply elem_of_lookup_imap_1 in Hv as (i & [file obj] & -> & Hi).
      apply lookup_zip_with_Some in Hi as (x & y & [= <- <-] & Hx & Hy).
      exists i, file, obj. unfold read_failure in Hfail. simpl in *.
      destruct (ReadDataFile E C file obj w1).1.2 as [e|]; [|done].
      destruct (is_ErrNotExist e) eqn:He; [done|]. injection Hfail as ->. done.
    - intros (i & file & obj & Hx & Hy & Herr & Hne).
      exists (ReadValue i (ReadDataFile E C file obj w1).1.1
                          (ReadDataFile E C file obj w1).1.2). split.
      + apply (elem_of_lookup_imap_2
                 (λ i fo, ReadValue i (ReadDataFile E C fo.1 fo.2 w1).1.1
                                      (ReadDataFile E C fo.1 fo.2 w1).1.2)
                 (zip files objects) (file, obj) i).
        apply lookup_zip_with_Some. eauto.
      + unfold read_failure. simpl. by rewrite Herr, Hne. }
  unfold OpenManyForUpdate. destruct (decide (length files ≠ length objects)); [done|].
  rewrite Hlock. fold reads.
  destruct (foldl_collect_read (arrival_order sched (fst <$> reads))
              ([], replicate (length files) None)) as [Herrs Hkeys].
  destruct (foldl collect_read _ _) as [errorList keys]. simpl in Herrs, Hkeys.
  assert (Hperm : errorList ≡ₚ failures).
  { rewrite Herrs. subst failures. by rewrite arrival_order_perm. }
  destruct failures as [|e0 failures0] eqn:Hfail.
  - apply Permutation_nil_r in Hperm as ->. exists keys.
    split; [done|]. split; [by rewrite Hkeys, keys_length, length_replicate|].
    split; [by eapply LockMany_ok|].
    intros i file obj Hx Hy.
    assert (Hkey : keys !! i = Some (ReadDataFile E C file obj w1).1.1).
    { rewrite Hkeys.
      apply (keys_lookup _ _ i (ReadValue i (ReadDataFile E C file obj w1).1.1
                                            (ReadDataFile E C file obj w1).1.2)).
      - rewrite arrival_order_perm. subst reads. rewrite read_all_values.
        apply (elem_of_lookup_imap_2
                 (λ i fo, ReadValue i (ReadDataFile E C fo.1 fo.2 w1).1.1
                                      (ReadDataFile E C fo.1 fo.2 w1).1.2)
                 (zip files objects) (file, obj) i).
        apply lookup_zip_with_Some. eauto.
      - done.
      - intros v'. rewrite arrival_order_perm. subst reads. rewrite read_all_values.
        intros (j & [file' obj'] & -> & Hj)%elem_of_lookup_imap_1. simpl. intros ->.
        apply lookup_zip_with_Some in Hj as (x & y & [= <- <-] & Hx' & Hy').
        congruence.
      - rewrite length_replicate. by eapply lookup_lt_Some. }
    split; [done|]. intros Habsent. by rewrite Hkey, ReadDataFile_not_found.
  - destruct errorList as [|e1 errorList].
    { symmetry in Hperm. by apply Permutation_nil_r in Hperm. }
    exists (e1 :: errorList). split; [done|]. split; [done|].
    intros Hnd Hrm f Hf.
    rewrite (UnlockMany_held E files w1 Hnd Hrm); [by apply unlocked_fs_gone|].
    by eapply LockMany_ok.
Qed.

End OpenFacts.

(** Opening [a] and [b] where [a] does not exist and the envelope of [b] is
    unreadable: the missing file is tolerated, the unreadable one is the
    error, no closure comes back and both locks are released. *)
Lemma OpenManyForUpdate_reads_witness :
  ∃ objs,
    OpenManyForUpdate Toy.env0 Toy.toy_codec 1 ["a"; "b"] [x00; x00] [] Toy.corrupt_b
    = Ret ((None, Some (Errorf "s.ReadDataFile" [ErrReadKey])), objs,
           (UnlockMany Toy.env0 ["a"; "b"] Toy.locked_corrupt_b).2.2)
    ∧ fs (UnlockMany Toy.env0 ["a"; "b"] Toy.locked_corrupt_b).2.2
        !! lock_path Toy.env0 "a" = None.
Proof.
  destruct (OpenManyForUpdate_reads Toy.env0 Toy.toy_codec 1 ["a"; "b"] [x00; x00] []
              Toy.corrupt_b Toy.locked_corrupt_b eq_refl) as [_ Hcase];
    [vm_compute; reflexivity|].
  assert (Hfail : omap read_failure
                    (fst <$> read_all Toy.env0 Toy.toy_codec ["a"; "b"] [x00; x00]
                               Toy.locked_corrupt_b) = [ErrReadKey])
    by (vm_compute; reflexivity).
  rewrite Hfail in Hcase. destruct Hcase as (errorList & Hperm & Hret & Hrel).
  apply Permutation_singleton_r in Hperm as ->.
  eexists. split; [exact Hret|].
  apply Hrel.
  - apply NoDup_cons; split; [by intros ?%list_elem_of_singleton|apply NoDup_singleton].
  - intros f _. reflexivity.
  - by left.
Defined.

(** ** The client: [Free] *)

Lemma stat_not_exist_iff (fn : string) (w : world) :
  stat_not_exist fn w = true ↔ fs w !! fn = None.
Proof. unfold stat_not_exist, os_Stat. destruct (fs w !! fn); simpl; split; done. Qed.

Section FreeFacts.
Context (E : env)
        (GlobFiles : list string → world → error + list ListItem)
        (HashString : string → string)
        (blobsDir : string).

Lemma freed_nil w : freed [] w w.
Proof.
  split; [constructor|]. split; [by intros p ?%elem_of_nil|].
  split; [done|]. split; [by rewrite app_nil_r|done].
Qed.

Lemma freed_cons p ps w w1 w' :
  os_Remove E p w = (None, w1) → freed ps w1 w' → freed (p :: ps) w w'.
Proof.
  intros [Hp ->]%os_Remove_ok (Hnd & Hin & Hout & Htr & Hso). simpl in *.
  assert (Hnin : p ∉ ps).
  { intros [Hsome _]%Hin. rewrite lookup_delete_eq in Hsome. by destruct Hsome. }
  split; [by constructor|]. split; [|split; [|split]].
  - intros q [->|Hq]%elem_of_cons.
    + split; [done|]. rewrite Hout by done. apply lookup_delete_eq.
    + destruct (Hin q Hq) as [Hsome Hnone]. split; [|done].
      destruct (decide (q = p)) as [->|Hne].
      * rewrite lookup_delete_eq in Hsome. by destruct Hsome.
      * by rewrite lookup_delete_ne in Hsome.
  - intros q [Hne Hq]%not_elem_of_cons. rewrite Hout by done.
    by rewrite lookup_delete_ne.
  - rewrite Htr. by rewrite <- app_assoc.
  - done.
Qed.

(** What the loop of [Free] does: either it removes the blobs [ps], which
    are exactly the blobs that were there of the items not marked local-only,
    and counts them; or it stops at the first item whose blob is there and
    cannot be removed, having gone through the items [l1] before it without
    error. *)
Lemma Free_loop_spec list count w :
  match Free_loop E HashString blobsDir list count w with
  | (inr count', w') =>
      ∃ ps, count' = count + length ps ∧ freed ps w w'
        ∧ ∀ p, p ∈ ps ↔
               ∃ item, item ∈ list ∧ LocalOnly (FSFile item) = false
                       ∧ p = blobPath E HashString blobsDir (File (FSFile item)) false
                       ∧ is_Some (fs w !! p)
  | (inl err, w') =>
      ∃ l1 item l2 count1 w1,
        list = l1 ++ item :: l2
        ∧ Free_loop E HashString blobsDir l1 count w = (inr count1, w1)
        ∧ LocalOnly (FSFile item) = false
        ∧ is_Some (fs w1 !! blobPath E HashString blobsDir (File (FSFile item)) false)
        ∧ os_Remove E (blobPath E HashString blobsDir (File (FSFile item)) false) w1
          = (Some err, w')
  end.
Proof.
  revert count w. induction list as [|item rest IH]; intros count w; simpl.
  { exists []. simpl. split; [lia|]. split; [apply freed_nil|].
    intros p. split; [by intros ?%elem_of_nil|].
    by intros (it & ?%elem_of_nil & _). }
  destruct (LocalOnly (FSFile item)) eqn:Hlocal.
  { specialize (IH count w).
    destruct (Free_loop E HashString blobsDir rest count w) as [[err|count'] w'].
    - destruct IH as (l1 & it & l2 & count1 & w1 & -> & Hl1 & ?).
      exists (item :: l1), it, l2, count1, w1. simpl. rewrite Hlocal. done.
    - destruct IH as (ps & ? & ? & Hps). exists ps. split; [done|]. split; [done|].
      intros p. rewrite Hps. split.
      + intros (it & ? & ?). exists it. split; [by right|done].
      + intros (it & [->|?]%elem_of_cons & Hl & ?); [congruence|]. by exists it. }
  destruct (stat_not_exist _ w) eqn:Hstat.
  { specialize (IH count w).
    destruct (Free_loop E HashString blobsDir rest count w) as [[err|count'] w'].
    - destruct IH as (l1 & it & l2 & count1 & w1 & -> & Hl1 & ?).
      exists (item :: l1), it, l2, count1, w1. simpl. rewrite Hlocal, Hstat. done.
    - destruct IH as (ps & ? & ? & Hps). exists ps. split; [done|]. split; [done|].
      intros p. rewrite Hps. split.
      + intros (it & ? & ?). exists it. split; [by right|done].
      + intros (it & [->|?]%elem_of_cons & Hl & -> & Hsome); [|by exists it].
        apply stat_not_exist_iff in Hstat. rewrite Hstat in Hsome. by destruct Hsome. }
  assert (Hthere : is_Some (fs w !! blobPath E HashString blobsDir (File (FSFile item)) false)).
  { destruct (fs w !! _) eqn:Hfs; [eauto|].
    apply stat_not_exist_iff in Hfs. congruence. }
  destruct (os_Remove E _ w) as [[err|] w1] eqn:Hrm.
  { exists [], item, rest, count, w. done. }
  specialize (IH (S count) w1).
  destruct (Free_loop E HashString blobsDir rest (S count) w1) as [[err|count'] w'].
  - destruct IH as (l1 & it & l2 & count1 & w2 & -> & Hl1 & ?).
    exists (item :: l1), it, l2, count1, w2.
    simpl. rewrite Hlocal, Hstat, Hrm, Hl1. done.
  - destruct IH as (ps & -> & Hfreed & Hps).
    exists (blobPath E HashString blobsDir (File (FSFile item)) false :: ps).
    simpl. split; [lia|]. split; [by eapply freed_cons|].
    pose proof Hrm as [_ Hw1]%os_Remove_ok.
    intros p. rewrite elem_of_cons, Hps. split.
    + intros [->|(it & Hit & Hl & -> & Hsome)].
      * exists item. split; [by left|done].
      * exists it. split; [by right|]. split; [done|]. split; [done|].
        rewrite Hw1 in Hsome. simpl in Hsome.
        destruct (decide (blobPath E HashString blobsDir (File (FSFile it)) false
                          = blobPath E HashString blobsDir (File (FSFile item)) false))
          as [Heq|Hne].
        -- rewrite Heq, lookup_delete_eq in Hsome. by destruct Hsome.
        -- by rewrite lookup_delete_ne in Hsome.
    + intros (it & Hit & Hl & -> & Hsome).
      destruct (decide (blobPath E HashString blobsDir (File (FSFile it)) false
                        = blobPath E HashString blobsDir (File (FSFile item)) false))
        as [Heq|Hne]; [by left|]. right.
      apply elem_of_cons in Hit as [->|Hit]; [done|].
      exists it. split; [done|]. split; [done|]. split; [done|].
      rewrite Hw1. simpl. by rewrite lookup_delete_ne.
Qed.

(** C10: [Free] passes over the items marked local-only and the items
    whose blob is not there.  When it returns no error, the files it has
    removed, one after the other, are exactly the blobs that were there of
    the items not marked local-only: every such blob is gone, nothing else
    changed, and the number printed is the number of files removed (or it
    prints that there is nothing to delete when there is none).  When it
    returns an error, that is the error of the first removal that failed:
    the items before it were gone through in the same way, their blobs are
    removed and stay so, nothing after it is attempted, nothing is
    printed. *)
Theorem Free_removes_until_first_error (patterns : list string) (list : list ListItem)
    (w : world) :
  GlobFiles patterns w = inr list →
  (∀ item rest count w0,
      LocalOnly (FSFile item) = true
      ∨ fs w0 !! blobPath E HashString blobsDir (File (FSFile item)) false = None →
      Free_loop E HashString blobsDir (item :: rest) count w0
      = Free_loop E HashString blobsDir rest count w0)
  ∧ match Free E GlobFiles HashString blobsDir patterns w with
    | (None, w') =>
        ∃ ps w1,
          freed ps w w1
          ∧ (∀ p, p ∈ ps ↔
                  ∃ item, item ∈ list ∧ LocalOnly (FSFile item) = false
                          ∧ p = blobPath E HashString blobsDir (File (FSFile item)) false
                          ∧ is_Some (fs w !! p))
          ∧ (∀ item, item ∈ list → LocalOnly (FSFile item) = false →
                     fs w' !! blobPath E HashString blobsDir (File (FSFile item)) false = None)
          ∧ size (fs w') + length ps = size (fs w)
          ∧ w' = print (if decide (length ps = 0) then msg_nothing_to_free
                        else msg_freed (length ps)) w1
    | (Some err, w') =>
        ∃ l1 item l2 ps w1,
          list = l1 ++ item :: l2
          ∧ freed ps w w1
          ∧ (∀ p, p ∈ ps ↔
                  ∃ it, it ∈ l1 ∧ LocalOnly (FSFile it) = false
                        ∧ p = blobPath E HashString blobsDir (File (FSFile it)) false
                        ∧ is_Some (fs w !! p))
          ∧ LocalOnly (FSFile item) = false
          ∧ is_Some (fs w1 !! blobPath E HashString blobsDir (File (FSFile item)) false)
          ∧ os_Remove E (blobPath E HashString blobsDir (File (FSFile item)) false) w1
            = (Some err, w')
          ∧ fs w' = fs w1
          ∧ stdout w' = stdout w
          ∧ trace w'
            = trace w ++ ((λ p, EvRemove p true) <$> ps)
              ++ [EvRemove (blobPath E HashString blobsDir (File (FSFile item)) false) false]
    end.
Proof.
  intros Hglob. split.
  { intros item rest count w0 [Hlocal|Habsent]; simpl.
    - by rewrite Hlocal.
    - apply stat_not_exist_iff in Habsent. rewrite Habsent.
      by destruct (LocalOnly (FSFile item)). }
  unfold Free. rewrite Hglob.
  pose proof (Free_loop_spec list 0 w) as Hloop.
  destruct (Free_loop E HashString blobsDir list 0 w) as [[err|count] w1].
  - destruct Hloop as (l1 & item & l2 & count1 & w2 & -> & Hl1 & Hlocal & Hthere & Hrm).
    pose proof (Free_loop_spec l1 0 w) as Hbefore. rewrite Hl1 in Hbefore.
    destruct Hbefore as (ps & _ & Hfreed & Hps).
    exists l1, item, l2, ps, w2. repeat (split; [done|]).
    pose proof Hrm as [-> _]%os_Remove_err.
    destruct Hfreed as (_ & _ & _ & Htr & Hso). simpl.
    split; [done|]. split; [done|]. by rewrite Htr, <- app_assoc.
  - destruct Hloop as (ps & -> & Hfreed & Hps). simpl.
    exists ps, w1. split; [done|]. split; [done|].
    assert (Hfs : fs (if decide (length ps = 0) then print msg_nothing_to_free w1
                      else print (msg_freed (length ps)) w1) = fs w1)
      by (by destruct (decide _)).
    rewrite Hfs. destruct Hfreed as (Hnd & Hgone & Hkept & _ & _).
    split; [|split; [|by destruct (decide (length ps = 0))]].
    + intros item Hitem Hlocal.
      destruct (fs w !! blobPath E HashString blobsDir (File (FSFile item)) false) eqn:Hw.
      * apply Hgone, Hps. exists item. rewrite Hw. eauto.
      * rewrite Hkept; [done|]. intros [Hsome _]%Hgone. rewrite Hw in Hsome.
        by destruct Hsome.
    + assert (Hmap : fs w1 = foldr delete (fs w) ps).
      { apply map_eq. intros p. destruct (decide (p ∈ ps)) as [Hin|Hnin].
        - rewrite (proj2 (Hgone p Hin)). symmetry.
          clear -Hin. induction ps as [|q ps IH]; [by apply elem_of_nil in Hin|].
          simpl. destruct (decide (p = q)) as [->|Hne]; [apply lookup_delete_eq|].
          rewrite lookup_delete_ne by done. apply IH.
          by apply elem_of_cons in Hin as [?|?].
        - rewrite Hkept by done. clear -Hnin.
          induction ps as [|q ps IH]; [done|]. simpl.
          apply not_elem_of_cons in Hnin as [Hne Hnin].
          rewrite lookup_delete_ne by done. by apply IH. }
      rewrite Hmap. clear -Hnd Hgone.
      assert (Hthere : ∀ p, p ∈ ps → is_Some (fs w !! p)) by (intros p Hp; by apply Hgone).
      clear Hgone. induction ps as [|q ps IH]; simpl; [lia|].
      apply NoDup_cons in Hnd as [Hq Hnd].
      assert (Hsome : is_Some (foldr delete (fs w) ps !! q)).
      { clear -Hq Hthere. assert (Hw : is_Some (fs w !! q)) by (apply Hthere; by left).
        clear Hthere. induction ps as [|r ps IH]; [done|]. simpl.
        apply not_elem_of_cons in Hq as [Hne Hq]. rewrite lookup_delete_ne by done.
        by apply IH. }
      destruct Hsome as [x Hx].
      rewrite map_size_delete, Hx.
      specialize (IH Hnd (λ p Hp, Hthere p (proj2 (elem_of_cons _ _ _) (or_intror Hp)))).
      assert (0 < size (foldr delete (fs w) ps)).
      { destruct (decide (size (foldr delete (fs w) ps) = 0)) as [H0|]; [|lia].
        apply map_size_empty_inv in H0. rewrite H0, lookup_empty in Hx. done. }
      simpl. lia.
Qed.

End FreeFacts.

(** Freeing the twelve candidates when three blobs are there: the three are
    removed and counted; when the second of them cannot be removed, the
    first stays removed, the error is returned and nothing is printed. *)
Lemma Free_removes_until_first_error_witness :
  (∃ ps w1,
      freed ps Toy.three_present w1
      ∧ "/d/blobs/hf/hf03" ∈ ps
      ∧ (Free Toy.env0 Toy.toy_glob Toy.toy_hash "blobs" ["*"] Toy.three_present).1 = None
      ∧ stdout (Free Toy.env0 Toy.toy_glob Toy.toy_hash "blobs" ["*"] Toy.three_present).2
        = [msg_freed 3])
  ∧ (Free Toy.env_f02 Toy.toy_glob Toy.toy_hash "blobs" ["*"] Toy.three_present).1
    = Some (ErrIO OpRemove "/d/blobs/hf/hf02")
  ∧ fs (Free Toy.env_f02 Toy.toy_glob Toy.toy_hash "blobs" ["*"] Toy.three_present).2
      !! "/d/blobs/hf/hf01" = None
  ∧ stdout (Free Toy.env_f02 Toy.toy_glob Toy.toy_hash "blobs" ["*"] Toy.three_present).2
    = stdout Toy.three_present.
Proof.
  split.
  - destruct (Free_removes_until_first_error Toy.env0 Toy.toy_glob Toy.toy_hash "blobs"
                ["*"] Toy.candidates Toy.three_present eq_refl) as [_ Hrun].
    assert (Hfree : (Free Toy.env0 Toy.toy_glob Toy.toy_hash "blobs" ["*"]
                       Toy.three_present).1 = None) by (vm_compute; reflexivity).
    destruct (Free Toy.env0 Toy.toy_glob Toy.toy_hash "blobs" ["*"] Toy.three_present)
      as [res w'] eqn:Hrun'.
    cbn [fst] in Hfree. subst res.
    destruct Hrun as (ps & w1 & Hfreed & Hps & _). exists ps, w1.
    split; [done|]. split.
    { apply Hps. exists (Toy.item "f03" false).
      split; [vm_compute; do 2 right; by left|].
      split; [reflexivity|]. split; [reflexivity|]. vm_compute. eauto. }
    split; [done|].
    change w' with (None (A:=error), w').2. rewrite <- Hrun'. vm_compute. reflexivity.
  - destruct (Free_removes_until_first_error Toy.env_f02 Toy.toy_glob Toy.toy_hash "blobs"
                ["*"] Toy.candidates Toy.three_present eq_refl) as [_ Hrun].
    assert (Hfree : (Free Toy.env_f02 Toy.toy_glob Toy.toy_hash "blobs" ["*"]
                       Toy.three_present).1 = Some (ErrIO OpRemove "/d/blobs/hf/hf02"))
      by (vm_compute; reflexivity).
    split; [exact Hfree|].
    split; [vm_compute; reflexivity|].
    destruct (Free Toy.env_f02 Toy.toy_glob Toy.toy_hash "blobs" ["*"] Toy.three_present)
      as [res w'].
    cbn [fst] in Hfree. subst res.
    destruct Hrun as (l1 & item & l2 & ps & w1 & _ & _ & _ & _ & _ & _ & _ & Hso & _).
    exact Hso.
Defined.

(** ** The client: [Sync] *)

Lemma downloaded_app (t1 t2 : list event) :
  downloaded (t1 ++ t2) = downloaded t1 ++ downloaded t2.
Proof. apply omap_app. Qed.

Lemma settled_refl (w : world) : settled w w.
Proof.
  split; [done|]. split; [done|]. split; [|done].
  exists []. by rewrite app_nil_r.
Qed.

Lemma settled_trans (w1 w2 w3 : world) : settled w1 w2 → settled w2 w3 → settled w1 w3.
Proof.
  intros (Ho1 & Hd1 & (t1 & Ht1 & Hw1) & Hp1) (Ho2 & Hd2 & (t2 & Ht2 & Hw2) & Hp2).
  split; [congruence|]. split; [congruence|]. split; [|by auto].
  exists (t1 ++ t2). rewrite Ht2, Ht1, <- app_assoc. split; [done|]. by apply Forall_app.
Qed.

Section SyncFacts.
Context (E : env)
        (GlobFiles : list string → world → error + list ListItem)
        (HashString : string → string)
        (blobsDir : string)
        (download : string → string → string → option (list byte)).

Local Abbreviation blob f := (blobPath E HashString blobsDir f false).

Lemma settled_log_fs (ev : event) (m : gmap string file) (w : world) :
  downloaded [ev] = [] → worker_ok ev →
  (∀ p, is_Some (fs w !! p) → is_Some (m !! p)) →
  settled w (log ev (set_fs m w)).
Proof.
  intros Hev Hok Hm. split; [done|]. simpl. split.
  - by rewrite downloaded_app, Hev, app_nil_r.
  - split; [|done]. exists [ev]. split; [done|]. by constructor.
Qed.

Lemma settled_log (ev : event) (w : world) :
  downloaded [ev] = [] → worker_ok ev → settled w (log ev w).
Proof.
  intros Hev Hok. split; [done|]. simpl. split.
  - by rewrite downloaded_app, Hev, app_nil_r.
  - split; [|done]. exists [ev]. split; [done|]. by constructor.
Qed.

(** [downloadFile] starts no other download, prints nothing and removes
    nothing that was there; when it succeeds the blob is in place. *)
Lemma downloadFile_spec li w :
  settled w (downloadFile E HashString blobsDir download li w).2
  ∧ ((downloadFile E HashString blobsDir download li w).1 = None →
     is_Some (fs (downloadFile E HashString blobsDir download li w).2
                !! blob (File (FSFile li)))).
Proof.
  unfold downloadFile.
  destruct (download _ _ _) as [r|]; [|split; [apply settled_refl|done]].
  destruct (createParentIfNotExist E _); [split; [apply settled_refl|done]|].
  set (tmp := blob (File (FSFile li)) +:+ "-tmp-" +:+ pretty (clock w)).
  unfold os_OpenFile_excl.
  destruct (fs w !! tmp) as [f0|] eqn:Htmp; [split; [by apply settled_log|done]|].
  destruct (fault E OpCreate tmp); [split; [by apply settled_log|done]|].
  unfold os_Write. simpl.
  destruct (fault E OpWrite tmp).
  { split; [|done]. apply settled_log_fs; [done..|].
    intros p Hp. destruct (decide (p = tmp)) as [->|Hne].
    - rewrite lookup_insert_eq. eauto.
    - by rewrite lookup_insert_ne. }
  rewrite lookup_insert_eq. simpl.
  unfold os_Close. destruct (fault E OpClose tmp).
  { split; [|done].
    eapply settled_trans; [apply (settled_log_fs (EvCreate tmp true)
                                    (<[tmp := mkFile [] (clock w)]> (fs w))); [done..|]|].
    - intros p Hp. destruct (decide (p = tmp)) as [->|Hne].
      + rewrite lookup_insert_eq. eauto.
      + by rewrite lookup_insert_ne.
    - split; [done|]. split; [done|]. split; [exists []; by rewrite app_nil_r|].
      simpl. intros p Hp. destruct (decide (p = tmp)) as [->|Hne].
      + rewrite lookup_insert_eq. eauto.
      + by rewrite lookup_insert_ne. }
  unfold os_Rename. destruct (fault E OpRename _).
  { split; [|done]. simpl. split; [done|]. simpl. split.
    - by rewrite !downloaded_app, !app_nil_r.
    - split.
      + exists [EvCreate tmp true; EvRename tmp (blob (File (FSFile li))) false].
        rewrite <- app_assoc. split; [done|]. by repeat constructor.
      + intros p Hp. destruct (decide (p = tmp)) as [->|Hne].
        * rewrite lookup_insert_eq. eauto.
        * by rewrite !lookup_insert_ne. }
  simpl. rewrite lookup_insert_eq. simpl. split.
  - split; [done|]. simpl. split.
    + by rewrite !downloaded_app, !app_nil_r.
    + split.
      * exists [EvCreate tmp true; EvRename tmp (blob (File (FSFile li))) true].
        rewrite <- app_assoc. split; [done|]. by repeat constructor.
      * intros p Hp. destruct (decide (p = blob (File (FSFile li)))) as [->|Hne1].
        { rewrite lookup_insert_eq. eauto. }
        rewrite lookup_insert_ne by done.
        assert (p ≠ tmp) by (intros ->; rewrite Htmp in Hp; by destruct Hp).
        by rewrite lookup_delete_ne, !lookup_insert_ne.
  - intros _. rewrite lookup_insert_eq. eauto.
Qed.

Lemma download_each_cons li rest who errors w :
  download_each E HashString blobsDir download (li :: rest) who errors w
  = match downloadFile E HashString blobsDir download li
            (log (EvDownload (hd 0 who `mod` numWorkers) (File (FSFile li))) w) with
    | (Some err, w1) =>
        download_each E HashString blobsDir download rest (tl who) (errors ++ [err]) w1
    | (None, w1) =>
        download_each E HashString blobsDir download rest (tl who) errors w1
    end.
Proof. reflexivity. Qed.

Lemma download_each_spec items who errors w :
  let r := download_each E HashString blobsDir download items who errors w in
  stdout r.2 = stdout w
  ∧ (∃ t, trace r.2 = trace w ++ t
          ∧ downloaded t = (λ li, File (FSFile li)) <$> items
          ∧ Forall worker_ok t)
  ∧ (∀ p, is_Some (fs w !! p) → is_Some (fs r.2 !! p))
  ∧ ∃ new, r.1 = errors ++ new
           ∧ (new = [] → ∀ li, li ∈ items → is_Some (fs r.2 !! blob (File (FSFile li)))).
Proof.
  cbv zeta. revert who errors w. induction items as [|li rest IH]; intros who errors w.
  { simpl. split; [done|]. split; [exists []; by rewrite app_nil_r|]. split; [done|].
    exists []. rewrite app_nil_r. split; [done|]. by intros _ li ?%elem_of_nil. }
  rewrite download_each_cons.
  set (worker := hd 0 who `mod` numWorkers).
  set (w0 := log (EvDownload worker (File (FSFile li))) w).
  destruct (downloadFile_spec li w0) as [(Ho & Hd & (t0 & Ht0 & Hw0) & Hp) Hblob].
  assert (Hworker : worker < numWorkers) by (apply Nat.mod_upper_bound; done).
  assert (Hdown0 : downloaded t0 = []).
  { rewrite Ht0, downloaded_app in Hd.
    apply (app_inv_head (downloaded (trace w0))). by rewrite Hd, app_nil_r. }
  assert (Hev : ∀ t, downloaded (EvDownload worker (File (FSFile li)) :: t0 ++ t)
                     = File (FSFile li) :: downloaded t).
  { intros t. change (EvDownload worker (File (FSFile li)) :: t0 ++ t)
      with ([EvDownload worker (File (FSFile li))] ++ t0 ++ t).
    by rewrite !downloaded_app, Hdown0. }
  destruct (downloadFile E HashString blobsDir download li w0) as [[err|] w1];
    cbn [fst snd] in *.
  - destruct (IH (tl who) (errors ++ [err]) w1)
      as (Ho' & (t & Ht & Hdt & Hwt) & Hp' & new & Hnew & _).
    split; [by rewrite Ho', Ho|]. split.
    + exists (EvDownload worker (File (FSFile li)) :: t0 ++ t).
      split; [rewrite Ht, Ht0; subst w0; simpl; by rewrite <- !app_assoc|].
      split; [by rewrite Hev, Hdt|]. constructor; [done|by apply Forall_app].
    + split; [by auto|]. exists (err :: new). rewrite Hnew, <- app_assoc. done.
  - destruct (IH (tl who) errors w1)
      as (Ho' & (t & Ht & Hdt & Hwt) & Hp' & new & Hnew & Hall).
    split; [by rewrite Ho', Ho|]. split.
    + exists (EvDownload worker (File (FSFile li)) :: t0 ++ t).
      split; [rewrite Ht, Ht0; subst w0; simpl; by rewrite <- !app_assoc|].
      split; [by rewrite Hev, Hdt|]. constructor; [done|by apply Forall_app].
    + split; [by auto|]. exists new. split; [done|].
      intros Hnil li' [->|Hli']%elem_of_cons; [by auto|by apply Hall].
Qed.

(** The map [files]: the file names of the candidates that are not
    local-only and have no blob yet; the item stored under a name has that
    name. *)
Lemma Sync_files_lookup list w f item :
  Sync_files E HashString blobsDir list w !! f = Some item →
  item ∈ list ∧ File (FSFile item) = f ∧ LocalOnly (FSFile item) = false
  ∧ fs w !! blob f = None.
Proof.
  unfold Sync_files. induction list as [|x l IH] using rev_ind; simpl.
  - by rewrite lookup_empty.
  - rewrite foldl_app. simpl.
    destruct (LocalOnly (FSFile x)) eqn:Hlocal.
    { intros (? & ?)%IH. split; [apply elem_of_app; by left|done]. }
    destruct (stat_not_exist _ w) eqn:Hstat.
    + destruct (decide (File (FSFile x) = f)) as [<-|Hne].
      * rewrite lookup_insert_eq. intros [= <-].
        split; [apply elem_of_app; right; by left|].
        by apply stat_not_exist_iff in Hstat.
      * rewrite lookup_insert_ne by done.
        intros (? & ?)%IH. split; [apply elem_of_app; by left|done].
    + intros (? & ?)%IH. split; [apply elem_of_app; by left|done].
Qed.

Lemma Sync_files_is_Some list w item :
  item ∈ list → LocalOnly (FSFile item) = false →
  fs w !! blob (File (FSFile item)) = None →
  is_Some (Sync_files E HashString blobsDir list w !! File (FSFile item)).
Proof.
  unfold Sync_files. intros Hin Hlocal Habsent.
  induction list as [|x l IH] using rev_ind; [by apply elem_of_nil in Hin|].
  rewrite foldl_app. simpl.
  apply elem_of_app in Hin as [Hin|Hin].
  - specialize (IH Hin). destruct (LocalOnly (FSFile x)); [done|].
    destruct (stat_not_exist _ w); [|done].
    destruct (decide (File (FSFile x) = File (FSFile item))) as [->|Hne].
    + rewrite lookup_insert_eq. eauto.
    + by rewrite lookup_insert_ne.
  - apply list_elem_of_singleton in Hin as <-. rewrite Hlocal.
    apply stat_not_exist_iff in Habsent. rewrite Habsent.
    rewrite lookup_insert_eq. eauto.
Qed.

(** C8, as the code has it: [Sync] downloads the candidates that are not
    local-only and whose blob is not there, once per file name, each by
    one of the [numWorkers] = 5 workers.  When every download succeeds the
    blobs are in place and it prints "Successfully downloaded N file(s)."
    with N their number if there is at least one, and "All files already
    in sync." if there is none. *)
Theorem Sync_downloads_what_is_missing (patterns : list string) (order who : list nat)
    (list : list ListItem) (w : world) :
  GlobFiles patterns w = inr list →
  let files := Sync_files E HashString blobsDir list w in
  let r := Sync E GlobFiles HashString blobsDir download patterns order who w in
  (∀ f, is_Some (files !! f) ↔
        ∃ item, item ∈ list ∧ File (FSFile item) = f ∧ LocalOnly (FSFile item) = false
                ∧ fs w !! blob f = None)
  ∧ (∃ t, trace r.2 = trace w ++ t
          ∧ downloaded t ≡ₚ (map_to_list files).*1
          ∧ Forall worker_ok t)
  ∧ NoDup (map_to_list files).*1
  ∧ (r.1 = None →
     stdout r.2 = stdout w ++ [if decide (size files = 0) then msg_in_sync
                               else msg_downloaded (size files)]
     ∧ ∀ f, is_Some (files !! f) → is_Some (fs r.2 !! blob f)).
Proof.
  intros Hglob files r. split.
  { intros f. split.
    - intros [item Hitem]. exists item. by apply Sync_files_lookup in Hitem.
    - intros (item & Hin & <- & Hlocal & Habsent). by apply Sync_files_is_Some. }
  subst r. unfold Sync. rewrite Hglob. fold files.
  set (items := arrival_order order (map_to_list files).*2).
  destruct (download_each_spec items who [] w)
    as (Hso & (t & Ht & Hdt & Hwt) & Hpres & new & Hnew & Hall).
  destruct (download_each E HashString blobsDir download items who [] w)
    as [errors w1]. cbn [fst snd] in *. simpl in Hnew. subst new.
  assert (Hnames : (λ li, File (FSFile li)) <$> (map_to_list files).*2
                   = (map_to_list files).*1).
  { rewrite <- list_fmap_compose. apply list_fmap_ext.
    intros i [f item] Hi. simpl.
    apply list_elem_of_lookup_2, elem_of_map_to_list in Hi.
    by apply Sync_files_lookup in Hi as (_ & ? & _). }
  split.
  { exists t. split; [by destruct (decide _), errors|]. split; [|done].
    rewrite Hdt. subst items. by rewrite arrival_order_perm, Hnames. }
  split; [apply NoDup_fst_map_to_list|].
  destruct errors as [|e errors]; [|done]. intros _. split.
  - destruct (decide (size files = 0)); simpl; by rewrite Hso.
  - intros f [item Hitem].
    assert (Hfs : fs (if decide (size files = 0) then print msg_in_sync w1
                      else print (msg_downloaded (size files)) w1) = fs w1)
      by (by destruct (decide _)).
    simpl. rewrite Hfs.
    pose proof Hitem as (_ & <- & _)%Sync_files_lookup.
    apply Hall; [done|]. subst items. rewrite arrival_order_perm.
    apply list_elem_of_fmap. exists (File (FSFile item), item).
    split; [done|]. by apply elem_of_map_to_list.
Qed.

End SyncFacts.

(** Scenario 6 of section 8: twelve candidates, three blobs already there;
    nine files are downloaded and nine are reported. *)
Lemma Sync_downloads_what_is_missing_witness :
  let r := Sync Toy.env0 Toy.toy_glob Toy.toy_hash "blobs" Toy.toy_download ["*"]
             [3; 1; 4; 1; 5] [0; 1; 2; 3; 4; 5; 6] Toy.three_present in
  r.1 = None
  ∧ stdout r.2 = ["Successfully downloaded 9 file(s)." +:+ newline]
  ∧ length (downloaded (trace r.2)) = 9.
Proof.
  intros r.
  destruct (Sync_downloads_what_is_missing Toy.env0 Toy.toy_glob Toy.toy_hash "blobs"
              Toy.toy_download ["*"] [3; 1; 4; 1; 5] [0; 1; 2; 3; 4; 5; 6]
              Toy.candidates Toy.three_present eq_refl) as (_ & _ & _ & Hfull).
  assert (Hnone : r.1 = None) by (vm_compute; reflexivity).
  destruct (Hfull Hnone) as [Hout _].
  split; [exact Hnone|]. split; [|vm_compute; reflexivity].
  fold r in Hout. rewrite Hout. vm_compute. reflexivity.
Defined.

(** C8 as stated fails when nothing is to be downloaded: a second [Sync]
    succeeds with N = 0 and prints "All files already in sync.", not
    "Successfully downloaded 0 file(s).". *)
Lemma Sync_prints_in_sync_for_zero :
  let w := (Sync Toy.env0 Toy.toy_glob Toy.toy_hash "blobs" Toy.toy_download ["*"]
              [] [] Toy.three_present).2 in
  let r := Sync Toy.env0 Toy.toy_glob Toy.toy_hash "blobs" Toy.toy_download ["*"]
             [] [] w in
  r.1 = None
  ∧ size (Sync_files Toy.env0 Toy.toy_hash "blobs" Toy.candidates w) = 0
  ∧ stdout r.2 = stdout w ++ ["All files already in sync." +:+ newline]
  ∧ stdout r.2 ≠ stdout w ++ [msg_downloaded 0].
Proof. repeat split; vm_compute; try reflexivity. discriminate. Qed.

(** * Further properties of the lock manager *)

Lemma creations_app (t1 t2 : list event) :
  creations (t1 ++ t2) = creations t1 ++ creations t2.
Proof. apply omap_app. Qed.

Section LockMore.
Context (E : env).

(** The first attempt of [Lock] when the lock file is not there. *)
Lemma Lock_fresh fuel fn w :
  fs w !! lock_path E fn = None →
  Lock E (S fuel) fn w =
  let lockf := lock_path E fn in
  if fault E OpMkdir lockf then Ret (Some (ErrIO OpMkdir lockf), w)
  else
    let w1 := set_rnd (S (rnd w)) w in
    if fault E OpCreate lockf
    then Ret (Some (ErrIO OpCreate lockf), log (EvCreate lockf false) w1)
    else
      let w2 := log (EvCreate lockf true)
                    (set_fs (<[lockf := mkFile [] (clock w)]> (fs w)) w1) in
      if fault E OpClose lockf then Ret (Some (ErrIO OpClose lockf), w2)
      else Ret (None, w2).
Proof.
  intros Habsent. unfold Lock, createParentIfNotExist. cbv zeta.
  destruct (fault E OpMkdir (lock_path E fn)); [done|].
  simpl. unfold os_OpenFile_excl. simpl. rewrite Habsent.
  destruct (fault E OpCreate (lock_path E fn)); [done|].
  simpl. unfold os_Close. by destruct (fault E OpClose (lock_path E fn)).
Qed.

Lemma tryToRemoveStaleLock_trace lockf deadline w :
  ∃ t, trace (tryToRemoveStaleLock E lockf deadline w) = trace w ++ t ∧ creations t = [].
Proof.
  unfold tryToRemoveStaleLock. destruct (os_Stat lockf w); [exists []; by rewrite app_nil_r|].
  destruct (decide _); [|exists []; by rewrite app_nil_r].
  unfold os_Remove. destruct (fault E OpRemove lockf); [by eexists [_]|].
  destruct (fs w !! lockf); by eexists [_].
Qed.

Lemma Lock_loop_creations fuel lockf deadline w w' :
  Lock_loop E fuel lockf deadline w = Ret (None, w') →
  ∃ t, trace w' = trace w ++ t ∧ creations t = [lockf].
Proof.
  revert w. induction fuel as [|fuel IH]; intros w; simpl; [done|].
  unfold os_OpenFile_excl. destruct (fs w !! lockf) as [f|] eqn:Hf.
  - simpl. intros (t & Ht & Hc)%IH. simpl in Ht.
    destruct (tryToRemoveStaleLock_trace lockf deadline (log (EvCreate lockf false) w))
      as (t0 & Ht0 & Hc0).
    rewrite Ht0 in Ht. simpl in Ht. exists (EvCreate lockf false :: t0 ++ t).
    split; [by rewrite Ht, <- !app_assoc|].
    change (EvCreate lockf false :: t0 ++ t) with ([EvCreate lockf false] ++ t0 ++ t).
    by rewrite !creations_app, Hc0, Hc.
  - destruct (fault E OpCreate lockf); simpl; [done|].
    unfold os_Close. destruct (fault E OpClose lockf); [done|].
    intros [= <-]. by exists [EvCreate lockf true].
Qed.

Lemma LockMany_loop_creations fuel sorted locks w w' :
  LockMany_loop E fuel sorted locks w = Ret (None, w') →
  ∃ t, trace w' = trace w ++ t ∧ creations t = lock_path E <$> sorted.
Proof.
  revert locks w. induction sorted as [|f rest IH]; intros locks w; simpl.
  - intros [= <-]. exists []. by rewrite app_nil_r.
  - destruct (Lock E fuel f w) as [[[err|] w1]| |] eqn:Hlock; try done.
    intros (t & Ht & Hc)%IH. unfold Lock in Hlock.
    destruct (createParentIfNotExist E (lock_path E f)); [done|]. simpl in Hlock.
    apply Lock_loop_creations in Hlock as (t0 & Ht0 & Hc0). simpl in Ht0.
    exists (t0 ++ t). split; [by rewrite Ht, Ht0, <- app_assoc|].
    by rewrite creations_app, Hc0, Hc.
Qed.

(** When [LockMany] returns without error, the lock files were created in
    the ascending order of the names, whatever the order of the argument and
    however long each lock was waited for: two callers locking the same names
    take them in the same order. *)
Theorem LockMany_acquires_in_sorted_order (fuel : nat) (files : list string) (w w' : world) :
  LockMany E fuel files w = Ret (None, w') →
  ∃ t, trace w' = trace w ++ t
       ∧ creations t = lock_path E <$> sort_strings files
       ∧ StronglySorted String.le (sort_strings files)
       ∧ sort_strings files ≡ₚ files.
Proof.
  unfold LockMany. intros (t & Ht & Hc)%LockMany_loop_creations. exists t.
  split; [done|]. split; [done|]. split; [apply sort_strings_sorted|apply sort_strings_perm].
Qed.

Lemma LockMany_loop_fresh fuel sorted locks w :
  NoDup sorted →
  (∀ f, f ∈ sorted → fs w !! lock_path E f = None) →
  (∀ f o, f ∈ sorted → o ∈ [OpMkdir; OpCreate; OpClose] → fault E o (lock_path E f) = false) →
  ∃ w', LockMany_loop E (S fuel) sorted locks w = Ret (None, w')
        ∧ (∀ f, f ∈ sorted → is_Some (fs w' !! lock_path E f))
        ∧ (∀ p, p ∉ lock_path E <$> sorted → fs w' !! p = fs w !! p)
        ∧ clock w' = clock w.
Proof.
  revert locks w. induction sorted as [|f rest IH]; intros locks w Hnd Habsent Hok.
  { exists w. simpl. split; [done|]. split; [by intros f ?%elem_of_nil|done]. }
  apply NoDup_cons in Hnd as [Hf Hnd].
  cbn [LockMany_loop]. rewrite Lock_fresh by (apply Habsent; by left). cbv zeta.
  rewrite !Hok by (try (by left); set_solver).
  set (w2 := log _ _).
  destruct (IH (locks ++ [f]) w2 Hnd) as (w' & Hrun & Hheld & Hother & Hclock).
  - intros g Hg. subst w2. simpl. rewrite lookup_insert_ne; [apply Habsent; by right|].
    intros Heq%lock_path_inj. by subst.
  - intros g o Hg Ho. apply Hok; [by right|done].
  - exists w'. split; [done|]. split; [|split; [|done]].
    + intros g [->|Hg]%elem_of_cons; [|by auto].
      rewrite Hother; [subst w2; simpl; rewrite lookup_insert_eq; eauto|].
      intros [g [Heq ?]]%list_elem_of_fmap. apply lock_path_inj in Heq. by subst.
    + intros p Hp. rewrite fmap_cons in Hp. apply not_elem_of_cons in Hp as [Hne Hp].
      rewrite Hother by done. subst w2. simpl. by rewrite lookup_insert_ne.
Qed.

(** Without contention [LockMany] returns at the first attempt: when the
    names are distinct, none of their lock files exists and the lock files
    can be created, any positive fuel gives the result; all the names are
    then locked, no other path is touched and no time was spent sleeping. *)
Theorem LockMany_free_locks_succeed (fuel : nat) (files : list string) (w : world) :
  NoDup files →
  (∀ f, f ∈ files → fs w !! lock_path E f = None) →
  (∀ f o, f ∈ files → o ∈ [OpMkdir; OpCreate; OpClose] → fault E o (lock_path E f) = false) →
  ∃ w', LockMany E (S fuel) files w = Ret (None, w')
        ∧ (∀ f, f ∈ files → is_Some (fs w' !! lock_path E f))
        ∧ (∀ p, p ∉ lock_path E <$> files → fs w' !! p = fs w !! p)
        ∧ clock w' = clock w.
Proof.
  intros Hnd Habsent Hok. unfold LockMany.
  destruct (LockMany_loop_fresh fuel (sort_strings files) [] w)
    as (w' & Hrun & Hheld & Hother & Hclock).
  - by rewrite sort_strings_perm.
  - intros f Hf. apply Habsent. by rewrite <- (sort_strings_perm files).
  - intros f o Hf. apply Hok. by rewrite <- (sort_strings_perm files).
  - exists w'. split; [done|]. split; [|split; [|done]].
    + intros f Hf. apply Hheld. by rewrite sort_strings_perm.
    + intros p Hp. apply Hother. by rewrite sort_strings_perm.
Qed.

(** Locking then unlocking leaves the files of the store exactly as they
    were. *)
Theorem LockMany_then_UnlockMany_restores (fuel : nat) (files : list string) (w : world) :
  NoDup files →
  (∀ f, f ∈ files → fs w !! lock_path E f = None) →
  (∀ f o, f ∈ files → o ∈ [OpMkdir; OpCreate; OpClose; OpRemove] →
          fault E o (lock_path E f) = false) →
  ∃ w1 w2, LockMany E (S fuel) files w = Ret (None, w1)
           ∧ (UnlockMany E files w1).2 = (None, w2)
           ∧ fs w2 = fs w.
Proof.
  intros Hnd Habsent Hok.
  destruct (LockMany_free_locks_succeed fuel files w Hnd Habsent)
    as (w1 & Hrun & Hheld & Hother & _).
  { intros f o Hf Ho. apply Hok; [done|]. set_solver. }
  exists w1, (unlocked E files w1). split; [done|]. split.
  - apply UnlockMany_loop_held; [done| |done].
    intros f Hf. apply Hok; [done|]. set_solver.
  - apply map_eq. intros p. destruct (decide (p ∈ lock_path E <$> files)) as [Hin|Hnin].
    + apply list_elem_of_fmap in Hin as (f & -> & Hf).
      by rewrite unlocked_fs_gone, Habsent.
    + by rewrite unlocked_fs_other, Hother.
Qed.

End LockMore.
